(** * lal-webhook: admission, metering and eviction over a Redis store

    Shallow embedding of [cmd/webhook/main.go].  The Redis server, the
    go-redis client, [strconv], [net/url] and gin are external libraries:
    Redis commands are modelled by their documented single-key semantics
    on a finite map, [net/url] is a parameter of the handlers, and a
    request body arrives as the result of [ShouldBindJSON]. *)

From Stdlib Require Import ZArith String Ascii List Lia.
From Stdlib Require Import DecimalString DecimalZ DecimalPos.
From stdpp Require Import gmap strings list fin_maps.

Open Scope string_scope.
Open Scope Z_scope.

(** ** Decimal integers: what Redis stores and what [strconv.Atoi] reads *)

Module Strconv.

Definition MinInt64 : Z := - 2 ^ 63.
Definition MaxInt64 : Z := 2 ^ 63 - 1.

Definition in_int64 (z : Z) : bool := (MinInt64 <=? z) && (z <=? MaxInt64).

(** [strconv.Itoa] and Redis's own integer-to-string conversion: the
    canonical decimal numeral. *)
Definition Itoa (z : Z) : string := NilZero.string_of_int (Z.to_int z).

(** Digits only, at least one of them (leading zeros allowed). *)
Definition digits (s : string) : option Z :=
  option_map Z.of_uint (NilZero.uint_of_string s).

Definition clamp (z : Z) : Z := Z.max MinInt64 (Z.min MaxInt64 z).

(** [strconv.Atoi] on a 64-bit platform with its error dropped, as every
    call site in the program does: an optional sign, then digits; a syntax
    error yields 0 and a range error yields the nearest bound. *)
Definition Atoi (s : string) : Z :=
  match s with
  | String "+" r => match digits r with Some n => clamp n | None => 0 end
  | String "-" r => match digits r with Some n => clamp (- n) | None => 0 end
  | _ => match digits s with Some n => clamp n | None => 0 end
  end.

End Strconv.

(** ** The Redis store *)

Module Redis.

Inductive RVal :=
| RString (s : string)
| RSet (members : gset string).

(** A key holds a value and an optional time to live in milliseconds, as
    it stands when the store is looked at.  Commands take no time; time
    passes between them, see [elapse]. *)
Record Entry := mkEntry { value : RVal; ttl : option Z }.

Abbreviation Store := (gmap string Entry).

Inductive Error :=
| Nil              (* redis.Nil: key does not exist *)
| WRONGTYPE
| ERR_not_an_integer
| ERR_overflow.

(** A go-redis command result: [Val()] and [Err()]. *)
Record Cmd (A : Type) := mkCmd { Val : A; Err : option Error }.
Arguments mkCmd {A} _ _.
Arguments Val {A} _.
Arguments Err {A} _.

Definition ok {A} (a : A) : Cmd A := mkCmd a None.
Definition fail {A} (zero : A) (e : Error) : Cmd A := mkCmd zero (Some e).

(** Redis accepts as an integer exactly the canonical numeral of a signed
    64-bit value (no sign [+], no leading zeros, no [-0]). *)
Definition string2ll (s : string) : option Z :=
  match NilZero.int_of_string s with
  | Some d =>
      let z := Z.of_int d in
      if String.eqb (Strconv.Itoa z) s && Strconv.in_int64 z then Some z else None
  | None => None
  end.

(** Glob patterns restricted to literal characters and [*], which is all
    the program's patterns contain.  [star rest t]: some suffix of [t]
    matches the rest of the pattern. *)
Fixpoint star (rest : string → bool) (t : string) : bool :=
  rest t || match t with
            | EmptyString => false
            | String _ t' => star rest t'
            end.

Fixpoint glob (p s : string) : bool :=
  match p with
  | EmptyString => match s with EmptyString => true | _ => false end
  | String "*" p' => star (glob p') s
  | String c p' =>
      match s with
      | String c' s' => Ascii.eqb c c' && glob p' s'
      | EmptyString => false
      end
  end.

(** KEYS pattern.  Redis fixes no order; the model lists the keys in the
    order of the map's enumeration. *)
Definition Keys (pattern : string) (st : Store) : Cmd (list string) :=
  ok (filter (fun k => glob pattern k = true) (map_to_list st).*1).

Definition Get (key : string) (st : Store) : Cmd string :=
  match st !! key with
  | None => fail "" Nil
  | Some (mkEntry (RString s) _) => ok s
  | Some (mkEntry (RSet _) _) => fail "" WRONGTYPE
  end.

(** [StringCmd.Int]. *)
Definition Int (c : Cmd string) : Cmd Z :=
  match Err c with
  | Some e => fail 0 e
  | None => ok (Strconv.Atoi (Val c))
  end.

(** SET key value PX ttl: overwrites whatever the key held. *)
Definition Set_ (key value : string) (expiration : Z) (st : Store) : Store :=
  <[key := mkEntry (RString value) (if expiration =? 0 then None else Some expiration)]> st.

(** SETNX key value (the program passes expiration 0). *)
Definition SetNX (key value : string) (st : Store) : Store * Cmd bool :=
  match st !! key with
  | Some _ => (st, ok false)
  | None => (<[key := mkEntry (RString value) None]> st, ok true)
  end.

(** DECRBY key n: a missing key counts as 0; the time to live is kept. *)
Definition DecrBy (key : string) (n : Z) (st : Store) : Store * Cmd Z :=
  match st !! key with
  | None =>
      (<[key := mkEntry (RString (Strconv.Itoa (0 - n))) None]> st, ok (0 - n))
  | Some (mkEntry (RString s) t) =>
      match string2ll s with
      | Some v =>
          if Strconv.in_int64 (v - n)
          then (<[key := mkEntry (RString (Strconv.Itoa (v - n))) t]> st, ok (v - n))
          else (st, fail 0 ERR_overflow)
      | None => (st, fail 0 ERR_not_an_integer)
      end
  | Some (mkEntry (RSet _) _) => (st, fail 0 WRONGTYPE)
  end.

Definition SMembers (key : string) (st : Store) : Cmd (list string) :=
  match st !! key with
  | None => ok []
  | Some (mkEntry (RSet m) _) => ok (elements m)
  | Some (mkEntry (RString _) _) => fail [] WRONGTYPE
  end.

Definition SAdd (key member : string) (st : Store) : Store * Cmd Z :=
  match st !! key with
  | None => (<[key := mkEntry (RSet {[member]}) None]> st, ok 1)
  | Some (mkEntry (RSet m) t) =>
      (<[key := mkEntry (RSet ({[member]} ∪ m)) t]> st,
       ok (if decide (member ∈ m) then 0 else 1))
  | Some (mkEntry (RString _) _) => (st, fail 0 WRONGTYPE)
  end.

(** SREM key member: a set left empty is removed with its key. *)
Definition SRem (key member : string) (st : Store) : Store * Cmd Z :=
  match st !! key with
  | None => (st, ok 0)
  | Some (mkEntry (RSet m) t) =>
      if decide (member ∈ m)
      then (if decide (m ∖ {[member]} = ∅)
            then delete key st
            else <[key := mkEntry (RSet (m ∖ {[member]})) t]> st, ok 1)
      else (st, ok 0)
  | Some (mkEntry (RString _) _) => (st, fail 0 WRONGTYPE)
  end.

Definition Del (key : string) (st : Store) : Store * Cmd Z :=
  match st !! key with
  | None => (st, ok 0)
  | Some _ => (delete key st, ok 1)
  end.

(** The passing of [ms] milliseconds on the server: a key without expiry
    stays, a key whose time to live is longer than [ms] ages by [ms], and
    a key whose time to live has run out is gone. *)
Definition age (ms : Z) (e : Entry) : option Entry :=
  match ttl e with
  | None => Some e
  | Some t => if t - ms <=? 0 then None else Some (mkEntry (value e) (Some (t - ms)))
  end.

Definition elapse (ms : Z) (st : Store) : Store := omap (age ms) st.

End Redis.

(** ** The webhook program, [cmd/webhook/main.go] *)

Module Webhook.
Import Redis.

Definition DefaultQuota : Z := 120.

Record LalNotify := mkLalNotify {
  SessionID : string;
  ID : string;
  StreamName : string;
  Url : string
}.

Record KickReq := mkKickReq { kStreamName : string; kSessionId : string }.

Definition GetID (l : LalNotify) : string :=
  if decide (SessionID l ≠ "") then SessionID l else ID l.

(** What a task does to the outside world besides the store: the POST to
    the media server's [/api/ctrl/kick_session] made by [kickLalSession],
    either by the task itself or by a goroutine it starts, which sleeps
    for [delay_ms] first. *)
Inductive Event :=
| CallKick (req : KickReq)
| GoSleepKick (delay_ms : Z) (req : KickReq).

Record World := mkWorld { rdb : Store; events : list Event }.

(** A task either returns or panics; the world a panic leaves behind is
    kept (gin's recovery middleware then answers 500). *)
Inductive Outcome (A : Type) :=
| Return (a : A) (w : World)
| Panic (w : World).
Arguments Return {A} _ _.
Arguments Panic {A} _.

Definition M (A : Type) : Type := World → Outcome A.

Definition ret {A} (a : A) : M A := fun w => Return a w.

Definition bind {A B} (m : M A) (k : A → M B) : M B :=
  fun w => match m w with
           | Return a w' => k a w'
           | Panic w' => Panic w'
           end.

Definition panic {A} : M A := fun w => Panic w.

Notation "x <- m ;; k" := (bind m (fun x => k))
  (at level 100, m at next level, right associativity, only parsing).
Notation "m >> k" := (bind m (fun _ => k))
  (at level 100, right associativity, only parsing).

(** A read-only command and a command that updates the store. *)
Definition query {A} (c : Store → Cmd A) : M (Cmd A) :=
  fun w => Return (c (rdb w)) w.

Definition exec {A} (c : Store → Store * Cmd A) : M (Cmd A) :=
  fun w => let '(st, r) := c (rdb w) in Return r (mkWorld st (events w)).

Definition emit (e : Event) : M unit :=
  fun w => Return tt (mkWorld (rdb w) (events w ++ [e])).

Fixpoint forM {A} (l : list A) (body : A → M unit) : M unit :=
  match l with
  | [] => ret tt
  | x :: l' => (body x >> forM l' body)
  end.

(** [kickLalSession]: one POST with a 5 s timeout; the reply is only
    logged. *)
Definition kickLalSession (streamName sessionId : string) : M unit :=
  emit (CallKick (mkKickReq streamName sessionId)).

(** [go func() { time.Sleep(d); kickLalSession(stream, sid) }()] *)
Definition go_sleep_kick (delay_ms : Z) (stream sid : string) : M unit :=
  emit (GoSleepKick delay_ms (mkKickReq stream sid)).

Definition TrimPrefix (s prefix : string) : string :=
  if String.prefix prefix s
  then String.substring (String.length prefix)
         (String.length s - String.length prefix)%nat s
  else s.

(** [fmt.Sprintf("remain:%s:%s", token, month)] *)
Definition remainKey (token month : string) : string :=
  "remain:" +:+ token +:+ ":" +:+ month.

(** *** The Enforcer, [startEnforcer] *)

(** Body of the loop over the session ids of one stream (lines 83-100). *)
Definition enforceSession (month key streamName sID : string) : M unit :=
  token <- query (Get ("sid_to_token:" +:+ sID)) ;;
  if decide (Val token = "") then ret tt
  else
    let tokenKey := remainKey (Val token) month in
    newBalance <- exec (DecrBy tokenKey 5) ;;
    if Val newBalance <=? 0 then
      (kickLalSession streamName sID >>
       exec (SRem key sID) >>
       exec (Del ("sid_to_token:" +:+ sID)) >>
       ret tt)
    else ret tt.

(** Body of the loop over the keys (lines 79-101). *)
Definition enforceStream (month key : string) : M unit :=
  let streamName := TrimPrefix key "active_sids:" in
  sids <- query (SMembers key) ;;
  forM (Val sids) (enforceSession month key streamName).

(** One tick (lines 75-102); [month] is [time.Now().Format("2006-01")]
    read at the start of the tick. *)
Definition enforcerTick (month : string) : M unit :=
  keys <- query (Keys "active_sids:*") ;;
  forM (Val keys) (enforceStream month).

(** [time.NewTicker(5 * time.Second)] *)
Definition TickerPeriod : Z := 5000.

(** Time passing on the Redis server while the task waits. *)
Definition pass (ms : Z) : M unit :=
  fun w => Return tt (mkWorld (elapse ms (rdb w)) (events w)).

(** [for range ticker.C]: the ticks delivered so far, each with the time
    since the previous one ([TickerPeriod] when the loop keeps up with its
    ticker) and the month in which it fired.  The keys of the store age by
    that time before the tick reads them. *)
Definition startEnforcer (ticks : list (Z * string)) : M unit :=
  forM ticks (fun tick => pass tick.1 >> enforcerTick tick.2).

(** *** The HTTP handlers *)

(** Result of [c.ShouldBindJSON(&msg)]: the struct as far as it was
    filled, and whether binding failed. *)
Record Bound := mkBound { msg : LalNotify; bindErr : bool }.

(** [c.JSON(200, gin.H{"error_code": .., "desp": ..})] *)
Record Reply := mkReply { status : Z; error_code : Z; desp : option string }.

Record QuotaInfo := mkQuotaInfo {
  Stream : string;
  Remaining : Z;
  Status : string
}.

Section Handlers.

(** [net/url]: [url.Parse] (an error is a nil [*URL]) and
    [u.Query().Get(name)]. *)
Context {URL : Type}.
Variable url_Parse : string → option URL.
Variable Query_Get : URL → string → string.

(** POST /on_sub_start.  [None] is a handler that returns without
    writing a body. *)
Definition on_sub_start (month : string) (b : Bound) : M (option Reply) :=
  if bindErr b then ret None
  else
    match url_Parse (Url (msg b)) with
    | None => panic   (* u.Query() on a nil *URL *)
    | Some u =>
        let token := Query_Get u "token" in
        let sID := GetID (msg b) in
        if decide (token = "") then
          (go_sleep_kick 200 (StreamName (msg b)) sID >>
           ret (Some (mkReply 200 1001 (Some "token required"))))
        else
          let tokenKey := remainKey token month in
          (exec (SetNX tokenKey (Strconv.Itoa DefaultQuota)) >>
           remain <- query (fun st => Int (Get tokenKey st)) ;;
           if Val remain <=? 0 then
             (go_sleep_kick 500 (StreamName (msg b)) sID >>
              ret (Some (mkReply 200 1002 (Some "no quota"))))
           else
             (exec (fun st => (Set_ ("sid_to_token:" +:+ sID) token 7200000 st, ok "OK")) >>
              exec (SAdd ("active_sids:" +:+ StreamName (msg b)) sID) >>
              ret (Some (mkReply 200 0 None))))
    end.

(** POST /on_sub_stop: the binding error is not looked at. *)
Definition on_sub_stop (b : Bound) : M (option Reply) :=
  let sID := GetID (msg b) in
  (exec (SRem ("active_sids:" +:+ StreamName (msg b)) sID) >>
   exec (Del ("sid_to_token:" +:+ sID)) >>
   ret (Some (mkReply 200 0 None))).

End Handlers.

(** GET /quotas (lines 173-203); the pattern is a literal of the source
    and the whole key goes into the [stream] field. *)
Definition quotaStatus (val : Z) : string :=
  if val <=? 0 then "exhausted" else "active".

Fixpoint quotasLoop (keys : list string) (results : list QuotaInfo)
  : M (list QuotaInfo) :=
  match keys with
  | [] => ret results
  | key :: keys' =>
      val <- query (fun st => Int (Get key st)) ;;
      quotasLoop keys' (results ++ [mkQuotaInfo key (Val val) (quotaStatus (Val val))])
  end.

Definition quotas : M (Z * list QuotaInfo) :=
  keys <- query (Keys "remain:*:2026-02") ;;
  results <- quotasLoop (Val keys) [] ;;
  ret (200, results).

End Webhook.

(** ** The start handler listed in [README.md]

    [README.md] carries a second listing of the webhook (lines 102-338),
    configured from the environment.  Its start handler (lines 255-304) is
    embedded here next to the one of [cmd/webhook/main.go]; the Enforcer
    and the stop handler of the listing issue the same commands as those
    of [main.go]. *)

Module Readme.
Import Redis Webhook.

Section Handlers.
Context {URL : Type}.
Variable url_Parse : string → option URL.
Variable Query_Get : URL → string → string.

(** [DefaultQuota, _ = strconv.Atoi(getEnv("DEFAULT_QUOTA_SEC", "120"))] *)
Variable DefaultQuota : Z.

Definition on_sub_start (month : string) (b : Bound) : M (option Reply) :=
  if bindErr b then ret (Some (mkReply 200 1 (Some "invalid json")))
  else
    match url_Parse (Url (msg b)) with
    | None => panic   (* u.Query() on a nil *URL *)
    | Some u =>
        let token := Query_Get u "token" in
        let sID := GetID (msg b) in
        if decide (token = "") then
          (go_sleep_kick 300 (StreamName (msg b)) sID >>
           ret (Some (mkReply 200 1001 (Some "token required"))))
        else
          let tokenKey := remainKey token month in
          (exec (SetNX tokenKey (Strconv.Itoa DefaultQuota)) >>
           remain <- query (fun st => Int (Get tokenKey st)) ;;
           if Val remain <=? 0 then
             (go_sleep_kick 300 (StreamName (msg b)) sID >>
              ret (Some (mkReply 200 1002 (Some "out of quota"))))
           else
             (exec (fun st => (Set_ ("sid_to_token:" +:+ sID) token 7200000 st, ok "OK")) >>
              exec (SAdd ("active_sids:" +:+ StreamName (msg b)) sID) >>
              ret (Some (mkReply 200 0 (Some "ok")))))
    end.

End Handlers.

End Readme.

(** ** A reference instance of [net/url]

    Enough of [url.Parse] and [url.ParseQuery] to run the handlers on
    concrete requests: the fragment is cut off, a control byte in the rest
    is an error, the query is what follows the first [?]; pairs are
    separated by [&], a pair holding [;] or a bad escape is dropped, and
    [+] and [%XX] are decoded.  The other errors of [url.Parse]
    (scheme, authority, path escapes) are not part of it. *)

Module NetUrl.

Record URL := mkURL { RawQuery : string }.

Fixpoint Cut (sep : ascii) (s : string) : string * string * bool :=
  match s with
  | EmptyString => (EmptyString, EmptyString, false)
  | String c s' =>
      if Ascii.eqb c sep then (EmptyString, s', true)
      else let '(before, after, found) := Cut sep s' in
           (String c before, after, found)
  end.

Fixpoint Contains (sep : ascii) (s : string) : bool :=
  match s with
  | EmptyString => false
  | String c s' => Ascii.eqb c sep || Contains sep s'
  end.

Fixpoint stringContainsCTLByte (s : string) : bool :=
  match s with
  | EmptyString => false
  | String c s' =>
      (nat_of_ascii c <? 32)%nat || (nat_of_ascii c =? 127)%nat
      || stringContainsCTLByte s'
  end.

Definition Parse (rawURL : string) : option URL :=
  let '(u, _, _) := Cut "#" rawURL in
  if stringContainsCTLByte u then None
  else let '(_, query, _) := Cut "?" u in Some (mkURL query).

Definition unhex (c : ascii) : option nat :=
  let n := nat_of_ascii c in
  if ((48 <=? n) && (n <=? 57))%nat then Some (n - 48)%nat
  else if ((97 <=? n) && (n <=? 102))%nat then Some (n - 87)%nat
  else if ((65 <=? n) && (n <=? 70))%nat then Some (n - 55)%nat
  else None.

Fixpoint QueryUnescape (s : string) : option string :=
  match s with
  | EmptyString => Some EmptyString
  | String "%" (String a (String b r)) =>
      match unhex a, unhex b, QueryUnescape r with
      | Some x, Some y, Some r' => Some (String (ascii_of_nat (16 * x + y)) r')
      | _, _, _ => None
      end
  | String "%" _ => None
  | String "+" r => option_map (String " ") (QueryUnescape r)
  | String c r => option_map (String c) (QueryUnescape r)
  end.

(** [ParseQuery] followed by [Get name]: the first value of [name]; the
    fuel bounds the number of pairs. *)
Fixpoint firstValue (fuel : nat) (query name : string) : string :=
  match fuel with
  | O => EmptyString
  | S fuel' =>
      if String.eqb query EmptyString then EmptyString
      else
        let '(kv, rest, _) := Cut "&" query in
        if Contains ";" kv || String.eqb kv EmptyString
        then firstValue fuel' rest name
        else
          let '(key, value, _) := Cut "=" kv in
          match QueryUnescape key, QueryUnescape value with
          | Some k, Some v =>
              if String.eqb k name then v else firstValue fuel' rest name
          | _, _ => firstValue fuel' rest name
          end
  end.

Definition Query_Get (u : URL) (name : string) : string :=
  firstValue (S (String.length (RawQuery u))) (RawQuery u) name.

End NetUrl.

(** ** The system as a whole: observations and requests *)

Module System.
Import Redis Webhook.

(** The integer a key holds, as Redis reads it. *)
Definition ledger (st : Store) (key : string) : option Z :=
  match st !! key with
  | Some (mkEntry (RString s) _) => string2ll s
  | _ => None
  end.

(** The active set of a stream. *)
Definition members (st : Store) (key : string) : gset string :=
  match st !! key with
  | Some (mkEntry (RSet m) _) => m
  | _ => ∅
  end.

(** The token a session id resolves to; the Enforcer takes the empty
    string for a missing mapping. *)
Definition mapping (st : Store) (sID : string) : option string :=
  match st !! ("sid_to_token:" +:+ sID) with
  | Some (mkEntry (RString token) _) =>
      if decide (token = "") then None else Some token
  | _ => None
  end.

Definition is_ledger_key (k : string) : Prop :=
  ∃ token month, k = remainKey token month.

Definition entry_int (e : Entry) : option Z :=
  match value e with
  | RString s => string2ll s
  | RSet _ => None
  end.

(** An entry either stays as it is or goes from one integer to a smaller
    or equal one. *)
Definition entry_le (e e' : Entry) : Prop :=
  e = e' ∨ ∃ n n', entry_int e = Some n ∧ entry_int e' = Some n' ∧ n' <= n.

(** Every ledger entry of [st] is still there in [st'], related by [R]. *)
Definition ledger_rel (R : Entry → Entry → Prop) (st st' : Store) : Prop :=
  ∀ k, is_ledger_key k → ∀ e, st !! k = Some e → ∃ e', st' !! k = Some e' ∧ R e e'.

(** The world a task leaves behind, whether it returned or panicked. *)
Definition after {A} (o : Outcome A) : World :=
  match o with
  | Return _ w => w
  | Panic w => w
  end.

Definition reply {A} (o : Outcome A) : option A :=
  match o with
  | Return a _ => Some a
  | Panic _ => None
  end.

(** Every ledger key holds an integer. *)
Definition ledger_wf (st : Store) : Prop :=
  ∀ k, is_ledger_key k → ∀ e, st !! k = Some e → ∃ n, entry_int e = Some n.

(** A task that keeps the store inside [P]. *)
Definition maintains {A} (P : Store → Prop) (m : M A) : Prop :=
  ∀ w, P (rdb w) → P (rdb (after (m w))).

(** A task that never panics. *)
Definition returns {A} (m : M A) : Prop :=
  ∀ w, ∃ a w', m w = Return a w'.

(** A task that relates the ledger before and after by [R], whatever
    world it starts in. *)
Definition preserves {A} (R : Entry → Entry → Prop) (m : M A) : Prop :=
  ∀ w, ledger_rel R (rdb w) (rdb (after (m w))).

Inductive Request :=
| SubStart (month : string) (b : Bound)
| SubStop (b : Bound)
| GetQuotas
| Tick (month : string).

Definition is_tick (r : Request) : bool :=
  match r with Tick _ => true | _ => false end.

Section Serve.
Context {URL : Type}.
Variable url_Parse : string → option URL.
Variable Query_Get : URL → string → string.

(** One request or one tick, run to completion. *)
Definition serve (r : Request) (w : World) : World :=
  match r with
  | SubStart month b => after (on_sub_start url_Parse Query_Get month b w)
  | SubStop b => after (on_sub_stop b w)
  | GetQuotas => after (quotas w)
  | Tick month => after (enforcerTick month w)
  end.

Definition serve_all (rs : list Request) (w : World) : World :=
  fold_left (fun w r => serve r w) rs w.
End Serve.

End System.

(** ** Concrete requests *)

Module Sample.
Import Redis Webhook System.

Definition start := on_sub_start NetUrl.Parse NetUrl.Query_Get.
Definition run := serve_all NetUrl.Parse NetUrl.Query_Get.

Definition w0 : World := mkWorld ∅ [].

Definition notify (sid stream url : string) : Bound :=
  mkBound (mkLalNotify sid "" stream url) false.

Definition s1_abc : Bound := notify "s1" "stream" "ws://h/live/stream.flv?token=abc".
Definition s2_abc : Bound := notify "s2" "stream" "ws://h/live/stream.flv?token=abc".
Definition s1_no_token : Bound := notify "s1" "stream" "ws://h/live/stream.flv".

(** A body that fails to bind: nothing of the struct was filled. *)
Definition malformed : Bound := mkBound (mkLalNotify "" "" "" "") true.

(** Valid JSON whose [url] holds a DEL byte, which [url.Parse] rejects. *)
Definition s1_bad_url : Bound :=
  notify "s1" "stream" (String (ascii_of_nat 127) "").

(** A store where token abc has used up its quota for 2026-02. *)
Definition exhausted : World :=
  mkWorld {[ "remain:abc:2026-02" := mkEntry (RString "0") None ]} [].

(** Session s1 of token abc is registered and abc has 5 seconds left. *)
Definition last_tick : World :=
  mkWorld {[ "remain:abc:2026-02" := mkEntry (RString "5") None;
             "sid_to_token:s1" := mkEntry (RString "abc") (Some 7200000);
             "active_sids:stream" := mkEntry (RSet {[ "s1" ]}) None ]} [].

(** Two sessions of one token, then thirteen ticks. *)
Definition two_viewers : list Request :=
  [SubStart "2026-02" s1_abc; SubStart "2026-02" s2_abc]
    ++ replicate 13 (Tick "2026-02").

(** A session admitted in January that is still registered when the first
    tick of February fires. *)
Definition rollover : list Request :=
  [SubStart "2026-01" s1_abc; Tick "2026-02"].

End Sample.

(** ** The registry and the shape of the store *)

Module Registry.
Import Redis Webhook System.

Definition activeKey (stream : string) : string := "active_sids:" +:+ stream.
Definition mapKey (sID : string) : string := "sid_to_token:" +:+ sID.

(** [e] is a kick sent by the calling task for a session that [P] allows
    and that is, in [st'], out of its stream's set and without mapping. *)
Definition kicked_out (P : string → string → Prop) (st' : Store) (e : Event) : Prop :=
  ∃ stream sid,
    e = CallKick (mkKickReq stream sid) ∧ P stream sid ∧
    (sid ∉ members st' (activeKey stream)) ∧ st' !! mapKey sid = None.

(** From [w] to [w'] no set has gained a member, no mapping was written,
    and the events added are kicks of sessions allowed by [P]. *)
Definition shrinks_by (P : string → string → Prop) (w w' : World) : Prop :=
  (∀ k, members (rdb w') k ⊆ members (rdb w) k) ∧
  (∀ sid, rdb w' !! mapKey sid = None ∨ rdb w' !! mapKey sid = rdb w !! mapKey sid) ∧
  (∃ ks, events w' = (events w ++ ks)%list ∧ Forall (kicked_out P (rdb w')) ks).

(** The sessions registered in [st]. *)
Definition registered (st : Store) (stream sid : string) : Prop :=
  sid ∈ members st (activeKey stream).



(** [key] is the only active-set key of [st] and [sID] its only member. *)
Definition sole_session (st : Store) (stream sID : string) : Prop :=
  (∃ t, st !! activeKey stream = Some (mkEntry (RSet {[ sID ]}) t)) ∧
  ∀ k, glob "active_sids:*" k = true → is_Some (st !! k) → k = activeKey stream.

(** A task that leaves the keys in [K] as they are. *)
Definition untouched {A} (K : string → Prop) (m : M A) : Prop :=
  ∀ w k, K k → rdb (after (m w)) !! k = rdb w !! k.

(** The (stream name, session id) pairs the inner loop of a tick ranges
    over for one key, as [TrimPrefix] and SMEMBERS give them on [st]. *)
Definition visits_of (st : Store) (key : string) : list (string * string) :=
  map (fun sID => (TrimPrefix key "active_sids:", sID)) (Val (SMembers key st)).

(** The pairs the two loops of a tick range over, the keys as KEYS gives
    them on [st]. *)
Definition visits (st : Store) : list (string * string) :=
  flat_map (visits_of st) (Val (Keys "active_sids:*" st)).

(** The step of a tick for one such pair. *)
Definition visit (month : string) (v : string * string) : M unit :=
  enforceSession month ("active_sids:" +:+ v.1) v.1 v.2.

(** A store with one registered session, as admission leaves it: the set
    and the ledger entry without expiry, the mapping with time to live
    [tm], the balance [n]. *)
Definition one_viewer (st : Store) (month stream sID token : string)
    (n : Z) (tm : option Z) : Prop :=
  sole_session st stream sID ∧
  st !! activeKey stream = Some (mkEntry (RSet {[ sID ]}) None) ∧
  st !! mapKey sID = Some (mkEntry (RString token) tm) ∧
  token ≠ "" ∧
  st !! remainKey token month = Some (mkEntry (RString (Strconv.Itoa n)) None) ∧
  Strconv.in_int64 n = true.

(** The same store once the mapping has expired. *)
Definition orphaned (st : Store) (month stream sID token : string) (n : Z) : Prop :=
  sole_session st stream sID ∧
  st !! activeKey stream = Some (mkEntry (RSet {[ sID ]}) None) ∧
  st !! mapKey sID = None ∧
  st !! remainKey token month = Some (mkEntry (RString (Strconv.Itoa n)) None) ∧
  Strconv.in_int64 n = true.

(** [j] ticks on time in one month. *)
Definition on_time (j : nat) (month : string) : list (Z * string) :=
  replicate j (TickerPeriod, month).

End Registry.

(** ** More concrete stores *)

Module Cases.
Import Redis Webhook System.

(** Session s1 of token abc is registered, and the ledger key of abc holds
    something that is not an integer. *)
Definition unreadable : World :=
  mkWorld {[ "remain:abc:2026-02" := mkEntry (RString "n/a") None;
             "sid_to_token:s1" := mkEntry (RString "abc") (Some 7200000);
             "active_sids:stream" := mkEntry (RSet {[ "s1" ]}) None ]} [].

(** Session s1 is in the active set of its stream but its mapping has
    expired. *)
Definition orphan : World :=
  mkWorld {[ "remain:abc:2026-02" := mkEntry (RString "60") None;
             "active_sids:stream" := mkEntry (RSet {[ "s1" ]}) None ]} [].

(** Sessions s1 and s2 of token abc are registered; abc has 60 seconds. *)
Definition two_sessions : World :=
  mkWorld {[ "remain:abc:2026-02" := mkEntry (RString "60") None;
             "sid_to_token:s1" := mkEntry (RString "abc") (Some 7200000);
             "sid_to_token:s2" := mkEntry (RString "abc") (Some 7200000);
             "active_sids:stream" := mkEntry (RSet {[ "s1"; "s2" ]}) None ]} [].

(** Session s1 of token abc is registered; abc has 12 seconds. *)
Definition twelve_left : World :=
  mkWorld {[ "remain:abc:2026-02" := mkEntry (RString "12") None;
             "sid_to_token:s1" := mkEntry (RString "abc") (Some 7200000);
             "active_sids:stream" := mkEntry (RSet {[ "s1" ]}) None ]} [].

(** Session s1 of token abc is registered with 12 seconds left on the
    ledger, and its mapping expires in 7 seconds. *)
Definition expiring : World :=
  mkWorld {[ "remain:abc:2026-02" := mkEntry (RString "12") None;
             "sid_to_token:s1" := mkEntry (RString "abc") (Some 7000);
             "active_sids:stream" := mkEntry (RSet {[ "s1" ]}) None ]} [].

(** Token abc has 60 seconds left and no session. *)
Definition sixty_left : World :=
  mkWorld {[ "remain:abc:2026-02" := mkEntry (RString "60") None ]} [].

End Cases.

(** ** Decimal numerals *)

Lemma to_uint_first_digit (p : positive) :
  ∃ c r, NilEmpty.string_of_uint (Pos.to_uint p) = String c r ∧
         c ≠ "+"%char ∧ c ≠ "-"%char.
Proof.
  pose proof (Unsigned.to_uint_nonnil p) as Hn.
  destruct (Pos.to_uint p); [congruence | ..]; simpl;
    eexists _, _; (split; [reflexivity | split; discriminate]).
Qed.

Lemma digits_to_uint (p : positive) :
  Strconv.digits (NilEmpty.string_of_uint (Pos.to_uint p)) = Some (Z.pos p).
Proof.
  unfold Strconv.digits.
  pose proof (Unsigned.to_uint_nonnil p) as Hn.
  pose proof (NilZero.usu _ Hn) as Hu.
  replace (NilZero.string_of_uint (Pos.to_uint p))
    with (NilEmpty.string_of_uint (Pos.to_uint p)) in Hu
    by (destruct (Pos.to_uint p); [congruence | reflexivity ..]).
  rewrite Hu. simpl. unfold Z.of_uint.
  now rewrite Unsigned.of_to.
Qed.

Lemma clamp_id (z : Z) : Strconv.in_int64 z = true → Strconv.clamp z = z.
Proof.
  unfold Strconv.in_int64, Strconv.clamp.
  intros [H1 H2]%andb_true_iff. apply Z.leb_le in H1, H2. lia.
Qed.

Lemma string_of_uint_nonnil (d : Decimal.uint) :
  d ≠ Decimal.Nil → NilZero.string_of_uint d = NilEmpty.string_of_uint d.
Proof. destruct d; [congruence | reflexivity ..]. Qed.

(** [Atoi] reads back what [Itoa] wrote. *)
Lemma Atoi_Itoa (z : Z) : Strconv.in_int64 z = true → Strconv.Atoi (Strconv.Itoa z) = z.
Proof.
  intros Hz. unfold Strconv.Itoa. destruct z as [| p | p]; simpl Z.to_int.
  - reflexivity.
  - simpl NilZero.string_of_int.
    rewrite string_of_uint_nonnil by apply Unsigned.to_uint_nonnil.
    destruct (to_uint_first_digit p) as (c & r & Hs & Hplus & Hminus).
    assert (Hd := digits_to_uint p). rewrite Hs in Hd |- *.
    assert (Strconv.Atoi (String c r)
            = match Strconv.digits (String c r) with
              | Some n => Strconv.clamp n
              | None => 0
              end) as ->.
    { unfold Strconv.Atoi.
      destruct c as [[] [] [] [] [] [] [] []]; try reflexivity; congruence. }
    rewrite Hd. now apply clamp_id.
  - simpl NilZero.string_of_int.
    rewrite string_of_uint_nonnil by apply Unsigned.to_uint_nonnil.
    unfold Strconv.Atoi. rewrite digits_to_uint.
    now apply clamp_id.
Qed.

(** Redis reads back the numerals it writes. *)
Lemma string2ll_Itoa (z : Z) :
  Strconv.in_int64 z = true → Redis.string2ll (Strconv.Itoa z) = Some z.
Proof.
  intros Hz. unfold Redis.string2ll, Strconv.Itoa.
  rewrite NilZero.isi.
  - rewrite DecimalZ.of_to. fold (Strconv.Itoa z).
    now rewrite String.eqb_refl, Hz.
  - destruct z; simpl; try discriminate.
    intros [= H]. now apply Unsigned.to_uint_nonnil in H.
  - destruct z; simpl; try discriminate.
    intros [= H]. now apply Unsigned.to_uint_nonnil in H.
Qed.

Lemma string2ll_inv (s : string) (z : Z) :
  Redis.string2ll s = Some z → s = Strconv.Itoa z ∧ Strconv.in_int64 z = true.
Proof.
  unfold Redis.string2ll. destruct (NilZero.int_of_string s) as [d |]; [| discriminate].
  destruct (String.eqb_spec (Strconv.Itoa (Z.of_int d)) s) as [He | He]; simpl;
    [| discriminate].
  destruct (Strconv.in_int64 (Z.of_int d)) eqn:Hr; [| discriminate].
  intros [= <-]. auto.
Qed.

Lemma Atoi_string2ll (s : string) (z : Z) :
  Redis.string2ll s = Some z → Strconv.Atoi s = z.
Proof. intros [-> Hz]%string2ll_inv. now apply Atoi_Itoa. Qed.

(** ** Key spaces

    The three kinds of key differ in their first character. *)

Import Redis Webhook System.

Lemma remainKey_head (token month : string) :
  remainKey token month = String "r" ("emain:" +:+ token +:+ ":" +:+ month).
Proof. reflexivity. Qed.

Lemma ledger_key_not_mapping (k sID : string) :
  is_ledger_key k → k ≠ "sid_to_token:" +:+ sID.
Proof. intros (t & m & ->). rewrite remainKey_head. simpl. discriminate. Qed.

Lemma ledger_key_not_active (k stream : string) :
  is_ledger_key k → k ≠ "active_sids:" +:+ stream.
Proof. intros (t & m & ->). rewrite remainKey_head. simpl. discriminate. Qed.

Lemma mapping_not_active (sID stream : string) :
  "sid_to_token:" +:+ sID ≠ "active_sids:" +:+ stream.
Proof. simpl. discriminate. Qed.

(** ** Single commands *)

Lemma SRem_lookup_ne (key member k : string) (st : Store) :
  k ≠ key → (SRem key member st).1 !! k = st !! k.
Proof.
  intros Hk. unfold SRem.
  destruct (st !! key) as [[[s | m] t] |]; simpl; try reflexivity.
  destruct (decide (member ∈ m)); simpl; [| reflexivity].
  destruct (decide (m ∖ {[member]} = ∅)).
  - now rewrite lookup_delete_ne.
  - now rewrite lookup_insert_ne.
Qed.

Lemma SRem_members (key member : string) (st : Store) :
  members (SRem key member st).1 key = members st key ∖ {[member]}.
Proof.
  unfold SRem, members.
  destruct (st !! key) as [[[s | m] t] |] eqn:Hst; simpl.
  - now rewrite Hst, empty_difference_L.
  - destruct (decide (member ∈ m)) as [Hm | Hm]; simpl.
    + destruct (decide (m ∖ {[member]} = ∅)) as [He | He].
      * now rewrite lookup_delete_eq, He.
      * now rewrite lookup_insert_eq.
    + rewrite Hst. symmetry. apply difference_disjoint_L.
      now apply disjoint_singleton_r.
  - now rewrite Hst, empty_difference_L.
Qed.

Lemma members_lookup (st st' : Store) (key : string) :
  st' !! key = st !! key → members st' key = members st key.
Proof. unfold members. now intros ->. Qed.


Lemma Del_fst (key : string) (st : Store) : (Del key st).1 = delete key st.
Proof.
  unfold Del. destruct (st !! key) eqn:Hst; simpl; [reflexivity |].
  symmetry. now apply delete_id.
Qed.

Lemma DecrBy_lookup_ne (key k : string) (n : Z) (st : Store) :
  k ≠ key → (DecrBy key n st).1 !! k = st !! k.
Proof.
  intros Hk. unfold DecrBy.
  destruct (st !! key) as [[[s | m] t] |]; simpl; try reflexivity.
  - destruct (string2ll s); [| reflexivity].
    destruct (Strconv.in_int64 _); simpl; [| reflexivity].
    now rewrite lookup_insert_ne.
  - now rewrite lookup_insert_ne.
Qed.

Lemma SAdd_lookup_ne (key member k : string) (st : Store) :
  k ≠ key → (SAdd key member st).1 !! k = st !! k.
Proof.
  intros Hk. unfold SAdd.
  destruct (st !! key) as [[[s | m] t] |]; simpl; try reflexivity;
    now rewrite lookup_insert_ne.
Qed.

Lemma SetNX_present (key v : string) (st : Store) (e : Entry) :
  st !! key = Some e → SetNX key v st = (st, ok false).
Proof. intros H. unfold SetNX. now rewrite H. Qed.

Lemma SetNX_lookup (key v k : string) (st : Store) (e : Entry) :
  st !! k = Some e → (SetNX key v st).1 !! k = Some e.
Proof.
  intros Hk. unfold SetNX. destruct (st !! key) eqn:Hkey; simpl; [assumption |].
  rewrite lookup_insert_ne; [assumption | congruence].
Qed.

(** ** Running the monad *)

Lemma bind_exec {A B} (c : Store → Store * Cmd A) (k : Cmd A → M B) (w : World) :
  bind (exec c) k w = k (c (rdb w)).2 (mkWorld (c (rdb w)).1 (events w)).
Proof. unfold bind, exec. now destruct (c (rdb w)). Qed.

Lemma bind_query {A B} (c : Store → Cmd A) (k : Cmd A → M B) (w : World) :
  bind (query c) k w = k (c (rdb w)) w.
Proof. reflexivity. Qed.

Lemma bind_emit {B} (e : Event) (k : unit → M B) (w : World) :
  bind (emit e) k w = k tt (mkWorld (rdb w) (events w ++ [e])).
Proof. reflexivity. Qed.

Lemma bind_ret {A B} (a : A) (k : A → M B) (w : World) :
  bind (ret a) k w = k a w.
Proof. reflexivity. Qed.

Ltac step_m :=
  unfold go_sleep_kick, kickLalSession;
  repeat first
    [ rewrite bind_exec | rewrite bind_query | rewrite bind_emit
    | rewrite bind_ret ];
  cbv beta; unfold ret.

(** ** The admission handler *)

Section Admission.
Context {URL : Type}.
Variable url_Parse : string → option URL.
Variable Query_Get : URL → string → string.

#[local] Abbreviation on_sub_start := (on_sub_start url_Parse Query_Get).

(** C5.  A start notification whose body does not bind makes the handler
    return at once (lines 111-113): neither the store nor the event log
    changes, and no body is written, so the reply carries no error code at
    all, where the specification asks for code 1 and the start handler
    listed in [README.md] gives it (see [readme_start_malformed_body]). *)
Theorem start_malformed_body_silent (month : string) (b : Bound) (w : World) :
  bindErr b = true → on_sub_start month b w = Return None w.
Proof. intros Hb. unfold Webhook.on_sub_start. now rewrite Hb. Qed.

(** C6.  A start notification whose URL parses and carries no (or an
    empty) [token] parameter is denied with code 1001; the store is left
    exactly as it was, so no ledger entry is created or decremented, and
    the only effect is the kick scheduled for (stream, session). *)
Theorem start_without_token_denied
    (month : string) (b : Bound) (u : URL) (w : World) :
  bindErr b = false →
  url_Parse (Url (msg b)) = Some u →
  Query_Get u "token" = "" →
  on_sub_start month b w
  = Return (Some (mkReply 200 1001 (Some "token required")))
      (mkWorld (rdb w)
         (events w ++ [GoSleepKick 200 (mkKickReq (StreamName (msg b)) (GetID (msg b)))])).
Proof.
  intros Hb Hu Ht. unfold Webhook.on_sub_start.
  rewrite Hb, Hu, Ht. reflexivity.
Qed.

(** C7.  A start notification with a token whose ledger entry for the
    current month holds a balance [n <= 0] is denied with code 1002, and
    the check leaves the whole store, that entry included, unchanged. *)
Theorem start_exhausted_denied
    (month : string) (b : Bound) (u : URL) (w : World) (n : Z) :
  bindErr b = false →
  url_Parse (Url (msg b)) = Some u →
  Query_Get u "token" ≠ "" →
  ledger (rdb w) (remainKey (Query_Get u "token") month) = Some n →
  n <= 0 →
  on_sub_start month b w
  = Return (Some (mkReply 200 1002 (Some "no quota")))
      (mkWorld (rdb w)
         (events w ++ [GoSleepKick 500 (mkKickReq (StreamName (msg b)) (GetID (msg b)))])).
Proof.
  intros Hb Hu Ht Hl Hn. unfold Webhook.on_sub_start.
  rewrite Hb, Hu. destruct (decide (Query_Get u "token" = "")) as [| _]; [done |].
  unfold ledger in Hl.
  destruct (rdb w !! remainKey (Query_Get u "token") month)
    as [[[s | m] t] |] eqn:He; try discriminate.
  step_m. rewrite (SetNX_present _ _ _ _ He). simpl.
  unfold Get, Int. rewrite He. simpl.
  rewrite (Atoi_string2ll _ _ Hl).
  destruct (Z.leb_spec n 0); [reflexivity | lia].
Qed.

(** The handler panics when [url.Parse] fails: the nil [*URL] is
    dereferenced before any store command is issued. *)
Lemma start_nil_url_panics (month : string) (b : Bound) (w : World) :
  bindErr b = false →
  url_Parse (Url (msg b)) = None →
  on_sub_start month b w = Panic w.
Proof. intros Hb Hu. unfold Webhook.on_sub_start. now rewrite Hb, Hu. Qed.

End Admission.

Lemma start_malformed_body_silent_witness :
  bindErr Sample.malformed = true ∧
  Sample.start "2026-02" Sample.malformed Sample.w0 = Return None Sample.w0.
Proof.
  split; [reflexivity |].
  apply (start_malformed_body_silent NetUrl.Parse NetUrl.Query_Get). reflexivity.
Defined.

(** The reply to a malformed body has no error code 1 in it: it has no
    body. *)
Lemma start_malformed_body_no_code_1 :
  ¬ ∃ r w', Sample.start "2026-02" Sample.malformed Sample.w0 = Return (Some r) w'
            ∧ error_code r = 1.
Proof. intros (r & w' & H & _). discriminate H. Qed.

Lemma start_without_token_denied_witness :
  Sample.start "2026-02" Sample.s1_no_token Sample.w0
  = Return (Some (mkReply 200 1001 (Some "token required")))
      (mkWorld ∅ [GoSleepKick 200 (mkKickReq "stream" "s1")]).
Proof.
  apply (start_without_token_denied NetUrl.Parse NetUrl.Query_Get
           "2026-02" Sample.s1_no_token (NetUrl.mkURL "") Sample.w0);
    reflexivity.
Defined.

Lemma start_exhausted_denied_witness :
  Sample.start "2026-02" Sample.s1_abc Sample.exhausted
  = Return (Some (mkReply 200 1002 (Some "no quota")))
      (mkWorld (rdb Sample.exhausted) [GoSleepKick 500 (mkKickReq "stream" "s1")]).
Proof.
  apply (start_exhausted_denied NetUrl.Parse NetUrl.Query_Get
           "2026-02" Sample.s1_abc (NetUrl.mkURL "token=abc") Sample.exhausted 0);
    [reflexivity | reflexivity | discriminate | vm_compute; reflexivity | lia].
Defined.

(** C10.  There is a start notification with a well-formed body whose [url]
    does not parse, and on it the handler does not return a decision: it
    panics, for every month and every store. *)
Theorem start_not_total :
  ∃ b : Bound,
    bindErr b = false ∧
    NetUrl.Parse (Url (msg b)) = None ∧
    ∀ month w, Sample.start month b w = Panic w.
Proof.
  exists Sample.s1_bad_url. split; [reflexivity |]. split; [reflexivity |].
  intros month w. now apply start_nil_url_panics.
Qed.

(** C6 as the spec words it fails.  The URL of this notification is a
    single DEL byte: it has no query, so no [token] parameter, and the
    body binds.  [url.Parse] rejects it, and the handler, which drops that
    error, panics on the nil URL before it writes a reply: no denial with
    code 1001 is given. *)
Lemma start_token_less_url_not_denied :
  bindErr Sample.s1_bad_url = false ∧
  String.index 0 "?" (Url (msg Sample.s1_bad_url)) = None ∧
  String.index 0 "token" (Url (msg Sample.s1_bad_url)) = None ∧
  ¬ ∃ r w', Sample.start "2026-02" Sample.s1_bad_url Sample.w0 = Return (Some r) w'
            ∧ error_code r = 1001.
Proof.
  split; [reflexivity |]. split; [reflexivity |]. split; [reflexivity |].
  intros (r & w' & H & _).
  unfold Sample.start in H.
  rewrite (start_nil_url_panics NetUrl.Parse NetUrl.Query_Get) in H by reflexivity.
  discriminate H.
Qed.

(** ** The stop handler *)


(** ** The Enforcer *)

Lemma Get_mapping (st : Store) (sID : string) :
  mapping st sID
  = if decide (Val (Get ("sid_to_token:" +:+ sID) st) = "") then None
    else Some (Val (Get ("sid_to_token:" +:+ sID) st)).
Proof.
  unfold mapping, Get.
  now destruct (st !! ("sid_to_token:" +:+ sID)) as [[[s | m] t] |].
Qed.

(** DECRBY on a key that holds the integer [v], or on a missing key
    ([v = 0]), away from the lower end of the 64-bit range. *)
Lemma DecrBy_spec (key : string) (n v : Z) (st : Store) :
  ledger st key = Some v ∨ (st !! key = None ∧ v = 0) →
  Strconv.in_int64 (v - n) = true →
  ∃ t, DecrBy key n st
       = (<[key := mkEntry (RString (Strconv.Itoa (v - n))) t]> st, ok (v - n)).
Proof.
  intros Hv Hr. unfold DecrBy, ledger in *.
  destruct (st !! key) as [[[s | m] t] |].
  - destruct Hv as [Hv | [? _]]; [| discriminate].
    rewrite Hv, Hr. now exists t.
  - destruct Hv as [? | [? _]]; discriminate.
  - destruct Hv as [? | [_ ->]]; [discriminate |]. now exists None.
Qed.

Lemma ledger_insert_Itoa (st : Store) (key : string) (z : Z) (t : option Z) :
  Strconv.in_int64 z = true →
  ledger (<[key := mkEntry (RString (Strconv.Itoa z)) t]> st) key = Some z.
Proof.
  intros Hz. unfold ledger. rewrite lookup_insert_eq. now apply string2ll_Itoa.
Qed.

Lemma ledger_lookup (st st' : Store) (key : string) :
  st' !! key = st !! key → ledger st' key = ledger st key.
Proof. unfold ledger. now intros ->. Qed.

(** One step of an Enforcer cycle, for session [sID] of stream
    [stream].  The step always completes.  If the session resolves to no
    token it changes nothing.  Otherwise, with [n] the balance of the
    token's ledger entry for the month (a missing entry counting as 0, as
    DECRBY has it) and [n - 5] still a 64-bit value, the balance becomes
    [n - 5] and no other ledger entry changes; when [n - 5 <= 0] exactly
    one kick for (stream, session) is sent, by the Enforcer itself, the
    session leaves the active set and its mapping is deleted; when
    [n - 5 > 0] nothing but that ledger entry changes. *)
Theorem enforcer_session_step (month stream sID : string) (w : World) :
  let key := "active_sids:" +:+ stream in
  let mapKey := "sid_to_token:" +:+ sID in
  ∃ w', enforceSession month key stream sID w = Return tt w' ∧
    match mapping (rdb w) sID with
    | None => w' = w
    | Some token =>
        let tokenKey := remainKey token month in
        ∀ n, ledger (rdb w) tokenKey = Some n ∨ (rdb w !! tokenKey = None ∧ n = 0) →
             Strconv.in_int64 (n - 5) = true →
             ledger (rdb w') tokenKey = Some (n - 5) ∧
             (∀ k, k ≠ tokenKey → k ≠ key → k ≠ mapKey → rdb w' !! k = rdb w !! k) ∧
             if n - 5 <=? 0 then
               events w' = (events w ++ [CallKick (mkKickReq stream sID)])%list ∧
               members (rdb w') key = members (rdb w) key ∖ {[sID]} ∧
               rdb w' !! mapKey = None
             else
               events w' = events w ∧
               rdb w' !! key = rdb w !! key ∧
               rdb w' !! mapKey = rdb w !! mapKey
    end.
Proof.
  intros key mapKey. rewrite Get_mapping. fold mapKey.
  unfold enforceSession. fold mapKey. step_m.
  destruct (decide (Val (Get mapKey (rdb w)) = "")) as [He | He].
  { now exists w. }
  step_m.
  set (token := Val (Get mapKey (rdb w))).
  set (tokenKey := remainKey token month).
  assert (Hk1 : tokenKey ≠ mapKey)
    by (apply ledger_key_not_mapping; now exists token, month).
  assert (Hk2 : tokenKey ≠ key)
    by (apply ledger_key_not_active; now exists token, month).
  assert (Hk3 : mapKey ≠ key) by apply mapping_not_active.
  destruct (Val (DecrBy tokenKey 5 (rdb w)).2 <=? 0) eqn:Hle.
  - step_m. simpl. rewrite Del_fst. eexists. split; [reflexivity |].
    intros n Hn Hr. destruct (DecrBy_spec _ 5 _ _ Hn Hr) as [t Hd].
    rewrite Hd in Hle |- *. simpl in *. rewrite Hle.
    split.
    { rewrite <- (ledger_insert_Itoa (rdb w) tokenKey (n - 5) t Hr).
      apply ledger_lookup. rewrite lookup_delete_ne by congruence.
      now apply SRem_lookup_ne. }
    split.
    { intros k H1 H2 H3. rewrite lookup_delete_ne by congruence.
      rewrite SRem_lookup_ne by assumption. now rewrite lookup_insert_ne. }
    split; [reflexivity |].
    split; [| apply lookup_delete_eq].
    transitivity (members (SRem key sID
      (<[tokenKey := mkEntry (RString (Strconv.Itoa (n - 5))) t]> (rdb w))).1 key).
    { apply members_lookup. now apply lookup_delete_ne. }
    rewrite SRem_members. f_equal. apply members_lookup.
    now apply lookup_insert_ne.
  - eexists. split; [reflexivity |].
    intros n Hn Hr. destruct (DecrBy_spec _ 5 _ _ Hn Hr) as [t Hd].
    rewrite Hd in Hle |- *. simpl in *. rewrite Hle.
    split; [now apply ledger_insert_Itoa |].
    split; [intros k H1 _ _; now rewrite lookup_insert_ne |].
    split; [reflexivity |].
    split; now rewrite lookup_insert_ne.
Qed.

(** ** What a task may do to the ledger *)

#[local] Instance entry_le_preorder : PreOrder entry_le.
Proof.
  split.
  - intros e. now left.
  - intros e1 e2 e3 [-> | (n & n' & H1 & H2 & Hle)] [<- | (m & m' & H3 & H4 & Hle')].
    + now left.
    + right. eauto 6.
    + right. eauto 6.
    + right. exists n, m'. rewrite H2 in H3. injection H3 as <-.
      repeat split; [assumption | assumption | lia].
Qed.

Section Preserves.
Variable R : Entry → Entry → Prop.
Context `{!PreOrder R}.

Lemma ledger_rel_refl (st : Store) : ledger_rel R st st.
Proof. intros k _ e He. exists e. split; [assumption | reflexivity]. Qed.

Lemma ledger_rel_trans (st1 st2 st3 : Store) :
  ledger_rel R st1 st2 → ledger_rel R st2 st3 → ledger_rel R st1 st3.
Proof.
  intros H12 H23 k Hk e He.
  destruct (H12 k Hk e He) as (e2 & He2 & HR2).
  destruct (H23 k Hk e2 He2) as (e3 & He3 & HR3).
  exists e3. split; [assumption | now transitivity e2].
Qed.

(** A store that agrees with [st] on every ledger key. *)
Lemma ledger_rel_frame (st st' : Store) :
  (∀ k, is_ledger_key k → st' !! k = st !! k) → ledger_rel R st st'.
Proof.
  intros H k Hk e He. exists e. rewrite (H k Hk).
  split; [assumption | reflexivity].
Qed.

Lemma preserves_ret {A} (a : A) : preserves R (ret a).
Proof. intros w. apply ledger_rel_refl. Qed.

Lemma preserves_panic {A} : preserves R (@panic A).
Proof. intros w. apply ledger_rel_refl. Qed.

Lemma preserves_query {A} (c : Store → Cmd A) : preserves R (query c).
Proof. intros w. apply ledger_rel_refl. Qed.

Lemma preserves_emit (e : Event) : preserves R (emit e).
Proof. intros w. apply ledger_rel_refl. Qed.

Lemma preserves_exec {A} (c : Store → Store * Cmd A) :
  (∀ st, ledger_rel R st (c st).1) → preserves R (exec c).
Proof. intros H w. unfold exec. specialize (H (rdb w)). now destruct (c (rdb w)). Qed.

Lemma preserves_bind {A B} (m : M A) (k : A → M B) :
  preserves R m → (∀ a, preserves R (k a)) → preserves R (bind m k).
Proof.
  intros Hm Hk w. unfold bind. specialize (Hm w).
  destruct (m w) as [a w' | w']; simpl in Hm.
  - eapply ledger_rel_trans; [exact Hm | apply Hk].
  - exact Hm.
Qed.

Lemma preserves_forM {A} (l : list A) (body : A → M unit) :
  (∀ x, x ∈ l → preserves R (body x)) → preserves R (forM l body).
Proof.
  induction l as [| x l IH]; intros Hb; simpl.
  - apply preserves_ret.
  - apply preserves_bind.
    + apply Hb. left.
    + intros _. apply IH. intros y Hy. apply Hb. now right.
Qed.

(** Commands on keys outside the ledger. *)
Lemma SRem_frame (key member : string) (st : Store) :
  ¬ is_ledger_key key → ledger_rel R st (SRem key member st).1.
Proof.
  intros Hkey. apply ledger_rel_frame. intros k Hk.
  apply SRem_lookup_ne. congruence.
Qed.

Lemma Del_frame (key : string) (st : Store) :
  ¬ is_ledger_key key → ledger_rel R st (Del key st).1.
Proof.
  intros Hkey. apply ledger_rel_frame. intros k Hk.
  rewrite Del_fst. apply lookup_delete_ne. congruence.
Qed.

Lemma SAdd_frame (key member : string) (st : Store) :
  ¬ is_ledger_key key → ledger_rel R st (SAdd key member st).1.
Proof.
  intros Hkey. apply ledger_rel_frame. intros k Hk.
  apply SAdd_lookup_ne. congruence.
Qed.

Lemma Set_frame (key v : string) (x : Z) (st : Store) :
  ¬ is_ledger_key key → ledger_rel R st (Set_ key v x st).
Proof.
  intros Hkey. apply ledger_rel_frame. intros k Hk.
  unfold Set_. apply lookup_insert_ne. congruence.
Qed.

(** SETNX never touches an entry that is there. *)
Lemma SetNX_frame (key v : string) (st : Store) :
  ledger_rel R st (SetNX key v st).1.
Proof.
  intros k _ e He. exists e. split; [now apply SetNX_lookup | reflexivity].
Qed.

End Preserves.

Lemma mapping_key_not_ledger (sID : string) : ¬ is_ledger_key ("sid_to_token:" +:+ sID).
Proof. intros H. now apply (ledger_key_not_mapping _ sID) in H. Qed.

Lemma active_key_not_ledger (stream : string) : ¬ is_ledger_key ("active_sids:" +:+ stream).
Proof. intros H. now apply (ledger_key_not_active _ stream) in H. Qed.

(** DECRBY by a non-negative amount only lowers the entry it is aimed at. *)
Lemma DecrBy_le (key : string) (n : Z) (st : Store) :
  0 <= n → ledger_rel entry_le st (DecrBy key n st).1.
Proof.
  intros Hn k _ e He. unfold DecrBy.
  destruct (decide (k = key)) as [-> | Hne].
  - rewrite He. destruct e as [[s | m] t]; simpl.
    + destruct (string2ll s) as [v |] eqn:Hs; simpl.
      * destruct (Strconv.in_int64 (v - n)) eqn:Hr; simpl.
        -- eexists. split; [apply lookup_insert_eq |].
           right. exists v, (v - n). unfold entry_int. simpl.
           rewrite Hs, (string2ll_Itoa _ Hr). repeat split. lia.
        -- exists (mkEntry (RString s) t). split; [assumption | now left].
      * exists (mkEntry (RString s) t). split; [assumption | now left].
    + exists (mkEntry (RSet m) t). split; [assumption | now left].
  - exists e. split; [| now left].
    now rewrite <- He, <- (DecrBy_lookup_ne key k n st Hne).
Qed.

(** ** Patterns *)

Lemma glob_literal_inv (c : ascii) (p s : string) :
  c ≠ "*"%char → glob (String c p) s = true →
  ∃ s', s = String c s' ∧ glob p s' = true.
Proof.
  intros Hc.
  assert (glob (String c p) s
          = match s with
            | String c' s' => Ascii.eqb c c' && glob p s'
            | EmptyString => false
            end) as ->.
  { destruct c as [[] [] [] [] [] [] [] []]; try reflexivity; congruence. }
  destruct s as [| c' s']; [discriminate |].
  intros [Hcc Hp]%andb_true_iff. apply Ascii.eqb_eq in Hcc as <-. eauto.
Qed.

Lemma glob_star_app (p t s : string) :
  glob p s = true → glob (String "*" p) (t +:+ s) = true.
Proof.
  intros Hp. change (star (glob p) (t +:+ s) = true).
  induction t as [| c t IH]; simpl.
  - destruct s; simpl; now rewrite Hp.
  - rewrite IH. apply orb_true_r.
Qed.

Lemma glob_star_inv (p s : string) :
  glob (String "*" p) s = true → ∃ t s', s = t +:+ s' ∧ glob p s' = true.
Proof.
  change (star (glob p) s = true → ∃ t s', s = t +:+ s' ∧ glob p s' = true).
  induction s as [| c s IH]; simpl.
  - intros H. exists "", "". split; [reflexivity |].
    now rewrite orb_false_r in H.
  - intros [H | H]%orb_true_iff.
    + now exists "", (String c s).
    + destruct (IH H) as (t & s' & -> & Hp). now exists (String c t), s'.
Qed.

Lemma glob_empty_inv (s : string) : glob "" s = true → s = "".
Proof. now destruct s. Qed.

Lemma glob_star_any (s : string) : glob "*" s = true.
Proof.
  change (star (glob "") s = true).
  induction s as [| c s IH]; simpl; [reflexivity | assumption].
Qed.

Lemma glob_active_sids (k : string) :
  glob "active_sids:*" k = true ↔ ∃ stream, k = "active_sids:" +:+ stream.
Proof.
  split.
  - intros H.
    do 12 (apply glob_literal_inv in H as (? & -> & H); [| discriminate]).
    eauto.
  - intros [stream ->]. change (glob "*" stream = true). apply glob_star_any.
Qed.

(** The pattern of GET /quotas selects the ledger keys of February 2026. *)
Lemma glob_remain_2026_02 (k : string) :
  glob "remain:*:2026-02" k = true ↔ ∃ token, k = remainKey token "2026-02".
Proof.
  split.
  - intros H.
    do 7 (apply glob_literal_inv in H as (? & -> & H); [| discriminate]).
    apply glob_star_inv in H as (token & s' & -> & H).
    do 8 (apply glob_literal_inv in H as (? & -> & H); [| discriminate]).
    apply glob_empty_inv in H as ->. now exists token.
  - intros [token ->]. apply (glob_star_app ":2026-02" token ":2026-02"). reflexivity.
Qed.

Lemma Keys_elem (pattern k : string) (st : Store) :
  k ∈ Val (Keys pattern st) ↔ glob pattern k = true ∧ is_Some (st !! k).
Proof.
  unfold Keys. simpl. rewrite list_elem_of_filter, list_elem_of_fmap.
  split.
  - intros [Hg ([k' e] & -> & He)]. apply elem_of_map_to_list in He. eauto.
  - intros [Hg [e He]]. split; [assumption |].
    exists (k, e). split; [reflexivity |]. now apply elem_of_map_to_list.
Qed.

(** ** Every task and the ledger *)

Lemma ledger_rel_eq_le (st st' : Store) :
  ledger_rel eq st st' → ledger_rel entry_le st st'.
Proof.
  intros H k Hk e He. destruct (H k Hk e He) as (e' & He' & <-).
  exists e. split; [assumption | now left].
Qed.

Lemma ledger_rel_eq_lookup (st st' : Store) (k : string) :
  ledger_rel eq st st' → is_ledger_key k → is_Some (st !! k) → st' !! k = st !! k.
Proof.
  intros H Hk [e He]. destruct (H k Hk e He) as (e' & He' & <-). congruence.
Qed.

Lemma ledger_rel_le_int (st st' : Store) (k : string) (n : Z) :
  ledger_rel entry_le st st' → is_ledger_key k → ledger st k = Some n →
  ∃ n', ledger st' k = Some n' ∧ n' <= n.
Proof.
  intros H Hk Hn. unfold ledger in *.
  destruct (st !! k) as [e |] eqn:He; [| discriminate].
  destruct (H k Hk e He) as (e' & He' & [<- | (m & m' & H1 & H2 & Hle)]).
  - rewrite He'. exists n. split; [assumption | lia].
  - rewrite He'. unfold entry_int in *.
    destruct e as [[s | x] t], e' as [[s' | x'] t']; simpl in *; try discriminate.
    exists m'. split; [assumption |]. congruence.
Qed.

Section Tasks.
Context {URL : Type}.
Variable url_Parse : string → option URL.
Variable Query_Get : URL → string → string.

(** The admission handler leaves every ledger entry that exists as it is. *)
Lemma start_preserves (month : string) (b : Bound) :
  preserves eq (on_sub_start url_Parse Query_Get month b).
Proof.
  unfold on_sub_start.
  destruct (bindErr b); [apply (preserves_ret eq) |].
  destruct (url_Parse (Url (msg b))) as [u |]; [| apply (preserves_panic eq)].
  destruct (decide (Query_Get u "token" = "")).
  { apply (preserves_bind eq); [apply (preserves_emit eq) |].
    intros _. apply (preserves_ret eq). }
  apply (preserves_bind eq); [|].
  { apply (preserves_exec eq). intros st. apply (SetNX_frame eq). }
  intros _. apply (preserves_bind eq); [apply (preserves_query eq) |].
  intros remain. destruct (Val remain <=? 0).
  { apply (preserves_bind eq); [apply (preserves_emit eq) |].
    intros _. apply (preserves_ret eq). }
  apply (preserves_bind eq); [|].
  { apply (preserves_exec eq). intros st. simpl.
    apply (Set_frame eq); apply mapping_key_not_ledger. }
  intros _. apply (preserves_bind eq); [|].
  { apply (preserves_exec eq). intros st.
    apply (SAdd_frame eq); apply active_key_not_ledger. }
  intros _. apply (preserves_ret eq).
Qed.

End Tasks.

Lemma stop_preserves (b : Bound) : preserves eq (on_sub_stop b).
Proof.
  unfold on_sub_stop.
  apply (preserves_bind eq); [|].
  { apply (preserves_exec eq). intros st.
    apply (SRem_frame eq); apply active_key_not_ledger. }
  intros _. apply (preserves_bind eq); [|].
  { apply (preserves_exec eq). intros st.
    apply (Del_frame eq); apply mapping_key_not_ledger. }
  intros _. apply (preserves_ret eq).
Qed.

(** GET /quotas reads only: the world is handed back untouched, and the
    answer lists, for every key the fixed pattern selects, the key itself,
    the integer read from it and the status derived from that integer. *)
Lemma quotasLoop_spec (keys : list string) (acc : list QuotaInfo) (w : World) :
  quotasLoop keys acc w
  = Return (acc ++ map (fun key =>
                          let val := Val (Int (Get key (rdb w))) in
                          mkQuotaInfo key val (quotaStatus val)) keys)%list w.
Proof.
  revert acc. induction keys as [| key keys IH]; intros acc; simpl.
  - unfold ret. now rewrite app_nil_r.
  - rewrite bind_query. rewrite IH. now rewrite <- app_assoc.
Qed.

Lemma quotas_spec (w : World) :
  quotas w
  = Return (200, map (fun key =>
                        let val := Val (Int (Get key (rdb w))) in
                        mkQuotaInfo key val (quotaStatus val))
                   (Val (Keys "remain:*:2026-02" (rdb w)))) w.
Proof.
  unfold quotas. rewrite bind_query. unfold bind.
  now rewrite quotasLoop_spec.
Qed.

Lemma enforceSession_preserves (month stream streamName sID : string) :
  preserves entry_le (enforceSession month ("active_sids:" +:+ stream) streamName sID).
Proof.
  unfold enforceSession.
  apply (preserves_bind entry_le); [apply (preserves_query entry_le) |].
  intros token. destruct (decide (Val token = "")); [apply (preserves_ret entry_le) |].
  apply (preserves_bind entry_le); [|].
  { apply (preserves_exec entry_le). intros st. apply DecrBy_le. lia. }
  intros newBalance. destruct (Val newBalance <=? 0); [| apply (preserves_ret entry_le)].
  apply (preserves_bind entry_le); [apply (preserves_emit entry_le) |].
  intros _. apply (preserves_bind entry_le); [|].
  { apply (preserves_exec entry_le). intros st.
    apply (SRem_frame entry_le); apply active_key_not_ledger. }
  intros _. apply (preserves_bind entry_le); [|].
  { apply (preserves_exec entry_le). intros st.
    apply (Del_frame entry_le); apply mapping_key_not_ledger. }
  intros _. apply (preserves_ret entry_le).
Qed.

Lemma enforcerTick_preserves (month : string) : preserves entry_le (enforcerTick month).
Proof.
  intros w. unfold enforcerTick. rewrite bind_query.
  apply (preserves_forM entry_le).
  intros key [Hg _]%Keys_elem. apply glob_active_sids in Hg as [stream ->].
  unfold enforceStream.
  apply (preserves_bind entry_le); [apply (preserves_query entry_le) |].
  intros sids. apply (preserves_forM entry_le).
  intros sID _. apply enforceSession_preserves.
Qed.

Lemma enforcer_session_step_witness :
  ∃ w', enforceSession "2026-02" "active_sids:stream" "stream" "s1" Sample.last_tick
        = Return tt w' ∧
        ledger (rdb w') "remain:abc:2026-02" = Some 0 ∧
        events w' = [CallKick (mkKickReq "stream" "s1")] ∧
        members (rdb w') "active_sids:stream" = ∅ ∧
        rdb w' !! "sid_to_token:s1" = None.
Proof.
  destruct (enforcer_session_step "2026-02" "stream" "s1" Sample.last_tick)
    as (w' & Hrun & Hspec).
  exists w'. split; [exact Hrun |].
  change (mapping (rdb Sample.last_tick) "s1") with (Some "abc") in Hspec.
  destruct (Hspec 5 (or_introl eq_refl) eq_refl) as (Hl & _ & He & Hm & Hk).
  repeat split; [exact Hl | exact He | | exact Hk].
  transitivity (members (rdb Sample.last_tick) "active_sids:stream" ∖ {["s1"]});
    [exact Hm | vm_compute; reflexivity].
Defined.

(** ** The ledger over the life of the system *)

Section Ledger.
Context {URL : Type}.
Variable url_Parse : string → option URL.
Variable Query_Get : URL → string → string.

(** An admission check that finds no entry for (token, month) creates it
    with the default quota and admits the session. *)
Lemma start_initializes_absent_entry
    (month : string) (b : Bound) (u : URL) (w : World) :
  bindErr b = false →
  url_Parse (Url (msg b)) = Some u →
  Query_Get u "token" ≠ "" →
  rdb w !! remainKey (Query_Get u "token") month = None →
  ∃ w', on_sub_start url_Parse Query_Get month b w
        = Return (Some (mkReply 200 0 None)) w' ∧
        rdb w' !! remainKey (Query_Get u "token") month
        = Some (mkEntry (RString "120") None) ∧
        ledger (rdb w') (remainKey (Query_Get u "token") month) = Some DefaultQuota.
Proof.
  intros Hb Hu Ht Habs. unfold on_sub_start. rewrite Hb, Hu.
  destruct (decide (Query_Get u "token" = "")) as [| _]; [done |].
  set (token := Query_Get u "token") in *.
  set (tokenKey := remainKey token month) in *.
  assert (HK : is_ledger_key tokenKey) by now exists token, month.
  assert (Hset : SetNX tokenKey (Strconv.Itoa DefaultQuota) (rdb w)
                 = (<[tokenKey := mkEntry (RString (Strconv.Itoa DefaultQuota)) None]>
                      (rdb w), ok true)).
  { unfold SetNX. now rewrite Habs. }
  step_m. rewrite Hset. simpl.
  unfold Get at 1, Int. rewrite lookup_insert_eq. simpl.
  step_m.
  eexists. split; [reflexivity |]. simpl.
  assert (Hk : (SAdd ("active_sids:" +:+ StreamName (msg b)) (GetID (msg b))
                  (Set_ ("sid_to_token:" +:+ GetID (msg b)) token 7200000
                     (<[tokenKey := mkEntry (RString (Strconv.Itoa DefaultQuota)) None]>
                        (rdb w)))).1 !! tokenKey
               = Some (mkEntry (RString "120") None)).
  { rewrite SAdd_lookup_ne by now apply ledger_key_not_active.
    unfold Set_. rewrite lookup_insert_ne
      by (apply not_eq_sym; now apply ledger_key_not_mapping).
    apply lookup_insert_eq. }
  split; [exact Hk |]. unfold ledger. now rewrite Hk.
Qed.

Lemma serve_preserves (r : Request) (w : World) :
  ledger_rel entry_le (rdb w) (rdb (serve url_Parse Query_Get r w)) ∧
  (is_tick r = false →
   ledger_rel eq (rdb w) (rdb (serve url_Parse Query_Get r w))).
Proof.
  destruct r as [month b | b | | month]; simpl.
  - pose proof (start_preserves url_Parse Query_Get month b w) as H.
    split; [now apply ledger_rel_eq_le | trivial].
  - pose proof (stop_preserves b w) as H.
    split; [now apply ledger_rel_eq_le | trivial].
  - rewrite quotas_spec. simpl.
    split; [apply (ledger_rel_refl entry_le) | intros _; apply (ledger_rel_refl eq)].
  - split; [apply enforcerTick_preserves | discriminate].
Qed.

End Ledger.

(** C9.  Whatever the system does next (a start or stop notification, a
    quota report, an Enforcer tick), a ledger entry holding the integer [n]
    holds an integer [n' <= n] afterwards, and [n' = n] unless the step
    was an Enforcer tick.  An admission check that finds no entry creates
    it at the default quota.  The balance is not clamped: with two viewers
    on one token it goes from 120 down to -5. *)
Theorem ledger_never_rises :
  (∀ (URL : Type) (url_Parse : string → option URL)
     (Query_Get : URL → string → string)
     (r : Request) (w : World) (k : string) (n : Z),
      is_ledger_key k → ledger (rdb w) k = Some n →
      ∃ n', ledger (rdb (serve url_Parse Query_Get r w)) k = Some n' ∧
            n' <= n ∧ (is_tick r = false → n' = n)) ∧
  (∀ (URL : Type) (url_Parse : string → option URL)
     (Query_Get : URL → string → string)
     (month : string) (b : Bound) (u : URL) (w : World),
      bindErr b = false → url_Parse (Url (msg b)) = Some u →
      Query_Get u "token" ≠ "" →
      rdb w !! remainKey (Query_Get u "token") month = None →
      ledger (rdb (serve url_Parse Query_Get (SubStart month b) w))
        (remainKey (Query_Get u "token") month) = Some DefaultQuota) ∧
  ledger (rdb (Sample.run Sample.two_viewers Sample.w0)) (remainKey "abc" "2026-02")
  = Some (-5).
Proof.
  split; [| split].
  - intros URL url_Parse Query_Get r w k n Hk Hn.
    destruct (serve_preserves url_Parse Query_Get r w) as [Hle Heq].
    destruct (ledger_rel_le_int _ _ k n Hle Hk Hn) as (n' & Hn' & Hnn).
    exists n'. repeat split; [assumption | assumption |].
    intros Ht. specialize (Heq Ht).
    assert (His : is_Some (rdb w !! k)).
    { unfold ledger in Hn. destruct (rdb w !! k); [eauto | discriminate]. }
    pose proof (ledger_lookup _ _ _ (ledger_rel_eq_lookup _ _ k Heq Hk His)) as Hsame.
    congruence.
  - intros URL url_Parse Query_Get month b u w Hb Hu Ht Habs.
    destruct (start_initializes_absent_entry url_Parse Query_Get month b u w Hb Hu Ht Habs)
      as (w' & Hrun & _ & Hl).
    simpl. now rewrite Hrun.
  - vm_compute. reflexivity.
Qed.

Lemma ledger_never_rises_witness :
  ∃ n', ledger (rdb (Sample.run [Tick "2026-02"] Sample.last_tick)) "remain:abc:2026-02"
        = Some n' ∧ n' <= 5.
Proof.
  destruct (proj1 ledger_never_rises NetUrl.URL NetUrl.Parse NetUrl.Query_Get
              (Tick "2026-02") Sample.last_tick "remain:abc:2026-02" 5)
    as (n' & Hn' & Hle & _).
  - now exists "abc", "2026-02".
  - vm_compute. reflexivity.
  - exists n'. split; [exact Hn' | exact Hle].
Defined.

(** C2 at the month rollover.  Session s1 of token abc is admitted in
    January and is still registered when the first tick of February fires:
    the tick decrements the February entry, which does not exist yet, so
    DECRBY creates it at -5 and s1 is kicked.  The token's first admission
    check in February then finds that entry, does not initialise it, and
    denies with 1002; the balance stays at -5 instead of the default
    quota. *)
Theorem first_check_after_rollover :
  let key := remainKey "abc" "2026-02" in
  let w1 := Sample.run Sample.rollover Sample.w0 in
  let w2 := after (Sample.start "2026-02" Sample.s2_abc w1) in
  rdb (Sample.run [SubStart "2026-01" Sample.s1_abc] Sample.w0) !! key = None ∧
  ledger (rdb w1) key = Some (-5) ∧
  reply (Sample.start "2026-02" Sample.s2_abc w1)
  = Some (Some (mkReply 200 1002 (Some "no quota"))) ∧
  ledger (rdb w2) key = Some (-5) ∧
  ledger (rdb w2) key ≠ Some DefaultQuota.
Proof. vm_compute. repeat split; discriminate. Qed.

(** Whatever the month of the request, the report lists exactly the
    ledger keys of February 2026 that are in the store. *)
Lemma quotas_entries (w : World) :
  ∃ l, quotas w = Return (200, l) w ∧
       ∀ k, k ∈ map Stream l
            ↔ (∃ token, k = remainKey token "2026-02") ∧ is_Some (rdb w !! k).
Proof.
  eexists. split; [apply quotas_spec |].
  intros k. rewrite map_map.
  rewrite (map_ext _ (fun key => key)) by reflexivity. rewrite map_id.
  rewrite Keys_elem. now rewrite glob_remain_2026_02.
Qed.

(** C3 in another month.  After an admission check for token abc in March
    2026 the ledger holds (abc, 2026-03) at 120, yet GET /quotas answers
    with no entry at all, because its pattern names February 2026.  In
    February itself the entry is listed, under the whole key rather than
    the token.  Either way the request hands the world back unchanged. *)
Theorem quotas_lists_february_2026 :
  let march := after (Sample.start "2026-03" Sample.s1_abc Sample.w0) in
  let february := after (Sample.start "2026-02" Sample.s1_abc Sample.w0) in
  ledger (rdb march) (remainKey "abc" "2026-03") = Some 120 ∧
  quotas march = Return (200, []) march ∧
  quotas february
  = Return (200, [mkQuotaInfo "remain:abc:2026-02" 120 "active"]) february.
Proof. vm_compute. repeat split. Qed.

(** ** Grace delays of the two denials *)

(** C4.  A denied admission starts exactly one goroutine that kicks
    (stream, session) after a fixed sleep, but not after the same sleep on
    both paths: 200 ms when the token is missing (code 1001, line 128),
    500 ms when the quota is used up (code 1002, line 148), which is
    outside the 200-300 ms of the specification; the start handler listed
    in [README.md] sleeps 300 ms on both (see [readme_denial_grace_delay]).
    An admitted session starts no goroutine. *)
Theorem denial_grace_delay
    {URL : Type} (url_Parse : string → option URL)
    (Query_Get : URL → string → string)
    (month : string) (b : Bound) (w w' : World) (r : Reply) :
  on_sub_start url_Parse Query_Get month b w = Return (Some r) w' →
  let req := mkKickReq (StreamName (msg b)) (GetID (msg b)) in
  (error_code r = 1001 ∧ events w' = (events w ++ [GoSleepKick 200 req])%list) ∨
  (error_code r = 1002 ∧ events w' = (events w ++ [GoSleepKick 500 req])%list) ∨
  (error_code r = 0 ∧ events w' = events w).
Proof.
  unfold on_sub_start.
  destruct (bindErr b); [discriminate |].
  destruct (url_Parse (Url (msg b))) as [u |]; [| discriminate].
  destruct (decide (Query_Get u "token" = "")).
  { step_m. intros [= <- <-]. left. now split. }
  step_m.
  destruct (Val (Int (Get _ _)) <=? 0).
  { step_m. intros [= <- <-]. right. left. now split. }
  step_m. intros [= <- <-]. right. right. now split.
Qed.

Lemma denial_grace_delay_witness :
  error_code (mkReply 200 1002 (Some "no quota")) = 1002 ∧
  events (after (Sample.start "2026-02" Sample.s1_abc Sample.exhausted))
  = [GoSleepKick 500 (mkKickReq "stream" "s1")].
Proof.
  destruct (denial_grace_delay NetUrl.Parse NetUrl.Query_Get "2026-02"
              Sample.s1_abc Sample.exhausted
              (after (Sample.start "2026-02" Sample.s1_abc Sample.exhausted))
              (mkReply 200 1002 (Some "no quota")) eq_refl)
    as [[Hc _] | [[_ He] | [Hc _]]].
  - discriminate Hc.
  - split; [reflexivity | exact He].
  - discriminate Hc.
Defined.

(** No single delay between 200 and 300 ms serves both denials: the
    exhausted-quota path sleeps 500 ms. *)
Lemma exhausted_denial_sleeps_500ms :
  ¬ ∃ d, 200 <= d <= 300 ∧
      ∀ (b : Bound) (w w' : World) (r : Reply),
        Sample.start "2026-02" b w = Return (Some r) w' →
        error_code r ≠ 0 →
        events w'
        = (events w ++ [GoSleepKick d (mkKickReq (StreamName (msg b)) (GetID (msg b)))])%list.
Proof.
  intros (d & Hd & H).
  specialize (H Sample.s1_abc Sample.exhausted
                (after (Sample.start "2026-02" Sample.s1_abc Sample.exhausted))
                (mkReply 200 1002 (Some "no quota")) eq_refl).
  assert (Hev : [GoSleepKick 500 (mkKickReq "stream" "s1")]
                = [GoSleepKick d (mkKickReq "stream" "s1")]).
  { apply H. discriminate. }
  injection Hev as <-. lia.
Qed.

(** ** The tick as a whole *)

Lemma substring_all (s : string) : String.substring 0 (String.length s) s = s.
Proof. induction s as [| c s IH]; simpl; [reflexivity | now rewrite IH]. Qed.

(** The stream name the Enforcer recovers from a key of the active sets. *)
Lemma TrimPrefix_active (stream : string) :
  TrimPrefix ("active_sids:" +:+ stream) "active_sids:" = stream.
Proof.
  unfold TrimPrefix. simpl. change ("" +:+ stream) with stream.
  rewrite Nat.sub_0_r, substring_all. now destruct stream.
Qed.

(** On the key of a stream the loop of lines 79-101 runs the session step
    once for every member of the active set as it is when the stream is
    reached. *)
Lemma enforceStream_members (month stream : string) (w : World) :
  let key := "active_sids:" +:+ stream in
  enforceStream month key w
  = forM (elements (members (rdb w) key)) (enforceSession month key stream) w.
Proof.
  intros key. unfold enforceStream. rewrite bind_query.
  replace (TrimPrefix key "active_sids:") with stream
    by (symmetry; apply TrimPrefix_active).
  unfold SMembers, members.
  now destruct (rdb w !! key) as [[[s | m] t] |].
Qed.

Lemma returns_ret {A} (a : A) : returns (ret a).
Proof. intros w. now exists a, w. Qed.

Lemma returns_query {A} (c : Store → Cmd A) : returns (query c).
Proof. intros w. now exists (c (rdb w)), w. Qed.

Lemma returns_exec {A} (c : Store → Store * Cmd A) : returns (exec c).
Proof. intros w. unfold exec. destruct (c (rdb w)). eauto. Qed.

Lemma returns_emit (e : Event) : returns (emit e).
Proof. intros w. unfold emit. eauto. Qed.

Lemma returns_bind {A B} (m : M A) (k : A → M B) :
  returns m → (∀ a, returns (k a)) → returns (bind m k).
Proof.
  intros Hm Hk w. unfold bind. destruct (Hm w) as (a & w' & ->). apply Hk.
Qed.

Lemma returns_forM {A} (l : list A) (body : A → M unit) :
  (∀ x, returns (body x)) → returns (forM l body).
Proof.
  intros Hb. induction l as [| x l IH]; simpl.
  - apply returns_ret.
  - apply returns_bind; [apply Hb | intros _; apply IH].
Qed.

Lemma enforceSession_returns (month key streamName sID : string) :
  returns (enforceSession month key streamName sID).
Proof.
  unfold enforceSession. apply returns_bind; [apply returns_query |].
  intros token. destruct (decide (Val token = "")); [apply returns_ret |].
  apply returns_bind; [apply returns_exec |].
  intros newBalance. destruct (Val newBalance <=? 0); [| apply returns_ret].
  apply returns_bind; [apply returns_emit |]. intros _.
  apply returns_bind; [apply returns_exec |]. intros _.
  apply returns_bind; [apply returns_exec |]. intros _.
  apply returns_ret.
Qed.

(** A tick always runs to its end. *)
Lemma enforcerTick_returns (month : string) : returns (enforcerTick month).
Proof.
  unfold enforcerTick. apply returns_bind; [apply returns_query |].
  intros keys. apply returns_forM. intros key. unfold enforceStream.
  apply returns_bind; [apply returns_query |].
  intros sids. apply returns_forM. intros sID. apply enforceSession_returns.
Qed.

(** The scenario of the specification: default quota 120, one viewer; the
    balance is 5 after 23 ticks and 0 on the 24th, which sends the one kick
    and empties the registry. *)
Example one_viewer_24_ticks :
  let admitted := Sample.run [SubStart "2026-02" Sample.s1_abc] Sample.w0 in
  let w23 := Sample.run (replicate 23 (Tick "2026-02")) admitted in
  let w24 := Sample.run [Tick "2026-02"] w23 in
  ledger (rdb admitted) "remain:abc:2026-02" = Some 120 ∧
  ledger (rdb w23) "remain:abc:2026-02" = Some 5 ∧ events w23 = [] ∧
  members (rdb w23) "active_sids:stream" = {[ "s1" ]} ∧
  ledger (rdb w24) "remain:abc:2026-02" = Some 0 ∧
  events w24 = [CallKick (mkKickReq "stream" "s1")] ∧
  members (rdb w24) "active_sids:stream" = ∅ ∧
  mapping (rdb w24) "s1" = None.
Proof. vm_compute. repeat split. Qed.

(** ** Reachable stores

    From the empty store on, every ledger key holds an integer: the
    premise on the balance in the Enforcer step and in the admission check
    is met in every state the system can reach. *)

Lemma ledger_wf_frame (st st' : Store) :
  (∀ k, is_ledger_key k → st' !! k = st !! k) → ledger_wf st → ledger_wf st'.
Proof. intros H Hwf k Hk e He. rewrite (H k Hk) in He. eauto. Qed.

Lemma maintains_ret {A} (P : Store → Prop) (a : A) : maintains P (ret a).
Proof. now intros w. Qed.

Lemma maintains_panic {A} (P : Store → Prop) : maintains P (@panic A).
Proof. now intros w. Qed.

Lemma maintains_query {A} (P : Store → Prop) (c : Store → Cmd A) :
  maintains P (query c).
Proof. now intros w. Qed.

Lemma maintains_emit (P : Store → Prop) (e : Event) : maintains P (emit e).
Proof. now intros w. Qed.

Lemma maintains_exec {A} (P : Store → Prop) (c : Store → Store * Cmd A) :
  (∀ st, P st → P (c st).1) → maintains P (exec c).
Proof. intros H w Hw. unfold exec. specialize (H (rdb w) Hw). now destruct (c (rdb w)). Qed.

Lemma maintains_bind {A B} (P : Store → Prop) (m : M A) (k : A → M B) :
  maintains P m → (∀ a, maintains P (k a)) → maintains P (bind m k).
Proof.
  intros Hm Hk w Hw. unfold bind. specialize (Hm w Hw).
  destruct (m w) as [a w' | w']; simpl in Hm; [now apply Hk | exact Hm].
Qed.

Lemma maintains_forM {A} (P : Store → Prop) (l : list A) (body : A → M unit) :
  (∀ x, x ∈ l → maintains P (body x)) → maintains P (forM l body).
Proof.
  induction l as [| x l IH]; intros Hb; simpl.
  - apply maintains_ret.
  - apply maintains_bind; [apply Hb; left |].
    intros _. apply IH. intros y Hy. apply Hb. now right.
Qed.

Lemma SetNX_wf (key : string) (z : Z) (st : Store) :
  Strconv.in_int64 z = true → ledger_wf st → ledger_wf (SetNX key (Strconv.Itoa z) st).1.
Proof.
  intros Hz Hwf k Hk e. unfold SetNX.
  destruct (st !! key) eqn:Hkey; simpl; [now apply Hwf |].
  destruct (decide (k = key)) as [-> | Hne].
  - rewrite lookup_insert_eq. intros [= <-]. exists z. now apply string2ll_Itoa.
  - rewrite lookup_insert_ne by congruence. now apply Hwf.
Qed.

Lemma DecrBy_wf (key : string) (n : Z) (st : Store) :
  Strconv.in_int64 (0 - n) = true → ledger_wf st → ledger_wf (DecrBy key n st).1.
Proof.
  intros Hn Hwf k Hk e. unfold DecrBy.
  destruct (decide (k = key)) as [-> | Hne].
  - destruct (st !! key) as [[[s | m] t] |] eqn:Hkey; simpl.
    + destruct (string2ll s) as [v |] eqn:Hs; simpl; [| now apply Hwf].
      destruct (Strconv.in_int64 (v - n)) eqn:Hr; simpl; [| now apply Hwf].
      rewrite lookup_insert_eq. intros [= <-]. exists (v - n).
      now apply string2ll_Itoa.
    + now apply Hwf.
    + rewrite lookup_insert_eq. intros [= <-]. exists (0 - n).
      now apply string2ll_Itoa.
  - intros He. apply (Hwf k Hk).
    now rewrite <- He, <- (DecrBy_lookup_ne key k n st Hne).
Qed.

Lemma enforceSession_wf (month stream streamName sID : string) :
  maintains ledger_wf (enforceSession month ("active_sids:" +:+ stream) streamName sID).
Proof.
  unfold enforceSession.
  apply maintains_bind; [apply maintains_query |].
  intros token. destruct (decide (Val token = "")); [apply maintains_ret |].
  apply maintains_bind.
  { apply maintains_exec. intros st. now apply DecrBy_wf. }
  intros newBalance. destruct (Val newBalance <=? 0); [| apply maintains_ret].
  apply maintains_bind; [apply maintains_emit |]. intros _.
  apply maintains_bind.
  { apply maintains_exec. intros st. apply ledger_wf_frame. intros k Hk.
    apply SRem_lookup_ne. now apply ledger_key_not_active. }
  intros _. apply maintains_bind.
  { apply maintains_exec. intros st. apply ledger_wf_frame. intros k Hk.
    rewrite Del_fst. apply lookup_delete_ne. apply not_eq_sym.
    now apply ledger_key_not_mapping. }
  intros _. apply maintains_ret.
Qed.

Lemma enforcerTick_wf (month : string) : maintains ledger_wf (enforcerTick month).
Proof.
  intros w. unfold enforcerTick. rewrite bind_query.
  apply maintains_forM.
  intros key [Hg _]%Keys_elem. apply glob_active_sids in Hg as [stream ->].
  unfold enforceStream.
  apply maintains_bind; [apply maintains_query |].
  intros sids. apply maintains_forM.
  intros sID _. apply enforceSession_wf.
Qed.

Lemma stop_wf (b : Bound) : maintains ledger_wf (on_sub_stop b).
Proof.
  unfold on_sub_stop. apply maintains_bind.
  { apply maintains_exec. intros st. apply ledger_wf_frame. intros k Hk.
    apply SRem_lookup_ne. now apply ledger_key_not_active. }
  intros _. apply maintains_bind.
  { apply maintains_exec. intros st. apply ledger_wf_frame. intros k Hk.
    rewrite Del_fst. apply lookup_delete_ne. apply not_eq_sym.
    now apply ledger_key_not_mapping. }
  intros _. apply maintains_ret.
Qed.

Section Reachable.
Context {URL : Type}.
Variable url_Parse : string → option URL.
Variable Query_Get : URL → string → string.

Lemma start_wf (month : string) (b : Bound) :
  maintains ledger_wf (on_sub_start url_Parse Query_Get month b).
Proof.
  unfold on_sub_start.
  destruct (bindErr b); [apply maintains_ret |].
  destruct (url_Parse (Url (msg b))) as [u |]; [| apply maintains_panic].
  destruct (decide (Query_Get u "token" = "")).
  { apply maintains_bind; [apply maintains_emit |].
    intros _. apply maintains_ret. }
  apply maintains_bind.
  { apply maintains_exec. intros st. now apply SetNX_wf. }
  intros _. apply maintains_bind; [apply maintains_query |].
  intros remain. destruct (Val remain <=? 0).
  { apply maintains_bind; [apply maintains_emit |].
    intros _. apply maintains_ret. }
  apply maintains_bind.
  { apply maintains_exec. intros st. simpl. apply ledger_wf_frame. intros k Hk.
    unfold Set_. apply lookup_insert_ne. apply not_eq_sym.
    now apply ledger_key_not_mapping. }
  intros _. apply maintains_bind.
  { apply maintains_exec. intros st. apply ledger_wf_frame. intros k Hk.
    apply SAdd_lookup_ne. now apply ledger_key_not_active. }
  intros _. apply maintains_ret.
Qed.

Lemma serve_wf (r : Request) (w : World) :
  ledger_wf (rdb w) → ledger_wf (rdb (serve url_Parse Query_Get r w)).
Proof.
  intros Hw. destruct r as [month b | b | | month]; simpl.
  - now apply start_wf.
  - now apply stop_wf.
  - now rewrite quotas_spec.
  - now apply enforcerTick_wf.
Qed.

(** Every store reached from the empty one has an integer under every
    ledger key. *)
Lemma reachable_ledger_wf (rs : list Request) :
  ledger_wf (rdb (serve_all url_Parse Query_Get rs Sample.w0)).
Proof.
  unfold serve_all.
  assert (H0 : ledger_wf (rdb Sample.w0)) by (intros k _ e He; discriminate He).
  revert H0. generalize Sample.w0.
  induction rs as [| r rs IH]; intros w Hw; simpl; [exact Hw |].
  apply IH. now apply serve_wf.
Qed.

End Reachable.

Lemma ledger_wf_cases (st : Store) (k : string) :
  ledger_wf st → is_ledger_key k →
  (∃ n, ledger st k = Some n) ∨ st !! k = None.
Proof.
  intros Hwf Hk. unfold ledger.
  destruct (st !! k) as [e |] eqn:He; [left | now right].
  destruct (Hwf k Hk e He) as [n Hn]. exists n.
  unfold entry_int in Hn. now destruct e as [[s | m] t].
Qed.

(** ** The session step, case by case *)

Import Registry.

Lemma mapping_Some (st : Store) (sID token : string) :
  mapping st sID = Some token →
  Val (Get (mapKey sID) st) = token ∧ token ≠ "".
Proof.
  rewrite Get_mapping. fold (mapKey sID).
  destruct (decide (Val (Get (mapKey sID) st) = "")); [discriminate |].
  now intros [= <-].
Qed.

Lemma mapping_lookup_None (st : Store) (sID : string) :
  mapping (delete (mapKey sID) st) sID = None.
Proof. unfold mapping. fold (mapKey sID). now rewrite lookup_delete_eq. Qed.

Lemma mapping_lookup (st st' : Store) (sID : string) :
  st' !! mapKey sID = st !! mapKey sID → mapping st' sID = mapping st sID.
Proof. unfold mapping. fold (mapKey sID). now intros ->. Qed.

(** The step on a session that resolves to [token], in terms of the reply
    of DECRBY. *)
Lemma enforceSession_run (month key streamName sID token : string) (w : World) :
  mapping (rdb w) sID = Some token →
  enforceSession month key streamName sID w
  = let d := DecrBy (remainKey token month) 5 (rdb w) in
    if Val d.2 <=? 0
    then Return tt (mkWorld (delete (mapKey sID) (SRem key sID d.1).1)
                      (events w ++ [CallKick (mkKickReq streamName sID)]))
    else Return tt (mkWorld d.1 (events w)).
Proof.
  intros [Hg Ht]%mapping_Some. unfold enforceSession. fold (mapKey sID).
  step_m. rewrite Hg. destruct (decide (token = "")); [done |].
  step_m. simpl.
  destruct (Val (DecrBy (remainKey token month) 5 (rdb w)).2 <=? 0); [| reflexivity].
  step_m. simpl. now rewrite Del_fst.
Qed.

Lemma enforceSession_skip (month key streamName sID : string) (w : World) :
  mapping (rdb w) sID = None →
  enforceSession month key streamName sID w = Return tt w.
Proof.
  rewrite Get_mapping. unfold enforceSession. step_m.
  now destruct (decide (Val (Get ("sid_to_token:" +:+ sID) (rdb w)) = "")).
Qed.

Lemma in_int64_between (a b c : Z) :
  Strconv.in_int64 a = true → Strconv.in_int64 c = true → a <= b <= c →
  Strconv.in_int64 b = true.
Proof.
  unfold Strconv.in_int64. rewrite !andb_true_iff, !Z.leb_le. lia.
Qed.

Lemma in_int64_small (z : Z) : -1000 <= z <= 1000 → Strconv.in_int64 z = true.
Proof.
  intros H. apply (in_int64_between (-1000) z 1000); [reflexivity | reflexivity | exact H].
Qed.

(** The step on a session whose token has more than one tick left. *)
Lemma enforceSession_bill
    (month key streamName sID token s : string) (t : option Z) (n : Z) (w : World) :
  mapping (rdb w) sID = Some token →
  rdb w !! remainKey token month = Some (mkEntry (RString s) t) →
  string2ll s = Some n → 5 < n →
  enforceSession month key streamName sID w
  = Return tt
      (mkWorld (<[remainKey token month := mkEntry (RString (Strconv.Itoa (n - 5))) t]> (rdb w))
         (events w)).
Proof.
  intros Hm He Hs Hn. rewrite (enforceSession_run _ _ _ _ token) by assumption.
  destruct (string2ll_inv _ _ Hs) as [_ Hr].
  assert (Hr' : Strconv.in_int64 (n - 5) = true).
  { apply (in_int64_between 0 (n - 5) n); [reflexivity | assumption | lia]. }
  unfold DecrBy. rewrite He, Hs, Hr'. simpl.
  destruct (Z.leb_spec (n - 5) 0); [lia | reflexivity].
Qed.

Lemma DecrBy_fails (key : string) (n : Z) (st : Store) (e : Entry) :
  st !! key = Some e →
  entry_int e = None ∨ (∃ v, entry_int e = Some v ∧ Strconv.in_int64 (v - n) = false) →
  ∃ err, DecrBy key n st = (st, fail 0 err).
Proof.
  intros He Hbad. unfold DecrBy. rewrite He.
  destruct e as [[s | m] t]; unfold entry_int in Hbad; simpl in Hbad; [| eauto].
  destruct (string2ll s) as [v |]; [| eauto].
  destruct Hbad as [? | (v' & [= <-] & Hr)]; [discriminate |].
  rewrite Hr. eauto.
Qed.

(** X1.  When DECRBY fails on the token's ledger entry (the key holds a
    set, a string that is not an integer, or an integer too close to the
    lower end of the 64-bit range), its error is dropped and the zero
    reply is taken for the new balance: the session is kicked once and
    unregistered although the ledger entry is left as it was. *)
Theorem enforcer_failed_decrement_kicks
    (month stream sID token : string) (e : Entry) (w : World) :
  mapping (rdb w) sID = Some token →
  rdb w !! remainKey token month = Some e →
  entry_int e = None ∨ (∃ n, entry_int e = Some n ∧ Strconv.in_int64 (n - 5) = false) →
  ∃ w', enforceSession month (activeKey stream) stream sID w = Return tt w' ∧
        rdb w' !! remainKey token month = Some e ∧
        events w' = (events w ++ [CallKick (mkKickReq stream sID)])%list ∧
        members (rdb w') (activeKey stream)
        = members (rdb w) (activeKey stream) ∖ {[sID]} ∧
        rdb w' !! mapKey sID = None.
Proof.
  intros Hm He Hbad.
  rewrite (enforceSession_run _ _ _ _ token) by assumption.
  destruct (DecrBy_fails _ 5 _ _ He Hbad) as [err ->]. simpl.
  assert (HK : is_ledger_key (remainKey token month)) by now exists token, month.
  eexists. split; [reflexivity |]. simpl.
  split.
  { rewrite lookup_delete_ne
      by (apply not_eq_sym; now apply ledger_key_not_mapping).
    rewrite SRem_lookup_ne by now apply ledger_key_not_active.
    exact He. }
  split; [reflexivity |].
  split; [| apply lookup_delete_eq].
  rewrite <- SRem_members. apply members_lookup.
  apply lookup_delete_ne. apply mapping_not_active.
Qed.

Lemma enforcer_failed_decrement_kicks_witness :
  ∃ w', enforceSession "2026-02" "active_sids:stream" "stream" "s1" Cases.unreadable
        = Return tt w' ∧
        rdb w' !! "remain:abc:2026-02" = Some (mkEntry (RString "n/a") None) ∧
        events w' = [CallKick (mkKickReq "stream" "s1")] ∧
        rdb w' !! "sid_to_token:s1" = None.
Proof.
  destruct (enforcer_failed_decrement_kicks "2026-02" "stream" "s1" "abc"
              (mkEntry (RString "n/a") None) Cases.unreadable)
    as (w' & Hrun & He & Hev & _ & Hmap).
  - reflexivity.
  - reflexivity.
  - left. reflexivity.
  - exists w'. repeat split; assumption.
Defined.

(** ** Ticks that bill and ticks that do not *)

Lemma forM_noop {A} (l : list A) (body : A → M unit) (w : World) :
  (∀ x, x ∈ l → body x w = Return tt w) → forM l body w = Return tt w.
Proof.
  induction l as [| x l IH]; intros Hb; simpl; [reflexivity |].
  unfold bind. rewrite Hb by left. apply IH. intros y Hy. apply Hb. now right.
Qed.

(** X2.  A tick bills and cleans nothing when no session id resolves to a
    token: it hands the world back as it found it.  In such a store a
    session id left in an active set after its mapping expired stays in
    the set and is not kicked, however many ticks follow. *)
Theorem tick_without_mappings_is_noop (month : string) (w : World) :
  (∀ sID, mapping (rdb w) sID = None) →
  enforcerTick month w = Return tt w.
Proof.
  intros Hnone. unfold enforcerTick. rewrite bind_query.
  apply forM_noop. intros key _. unfold enforceStream. rewrite bind_query.
  apply forM_noop. intros sID _. now apply enforceSession_skip.
Qed.

Lemma tick_without_mappings_is_noop_witness :
  registered (rdb Cases.orphan) "stream" "s1" ∧
  enforcerTick "2026-02" Cases.orphan = Return tt Cases.orphan.
Proof.
  split.
  - unfold registered. vm_compute. reflexivity.
  - apply tick_without_mappings_is_noop. intros sID. unfold mapping.
    destruct (decide (("sid_to_token:" +:+ sID) = "remain:abc:2026-02")) as [H | H];
      [discriminate H |].
    destruct (decide (("sid_to_token:" +:+ sID) = "active_sids:stream")) as [H' | H'];
      [discriminate H' |].
    unfold Cases.orphan. simpl rdb.
    rewrite lookup_insert_ne by congruence.
    now rewrite lookup_singleton_ne by congruence.
Defined.

(** Billing steps in a row: as long as every step finds more than one tick
    left, a run of steps lowers the entry by 5 each and does nothing
    else. *)
Lemma repeat_bill {A} (tk : string) (t : option Z) (Inv : Store → Prop)
    (Q : A → Prop) (body : A → M unit) :
  (∀ st z, Inv st → Inv (<[tk := mkEntry (RString (Strconv.Itoa z)) t]> st)) →
  (∀ x w s n, Q x → Inv (rdb w) →
     rdb w !! tk = Some (mkEntry (RString s) t) → string2ll s = Some n → 5 < n →
     body x w
     = Return tt (mkWorld (<[tk := mkEntry (RString (Strconv.Itoa (n - 5))) t]> (rdb w))
                    (events w))) →
  ∀ (l : list A) (w : World) (s : string) (n : Z),
    Forall Q l → Inv (rdb w) →
    rdb w !! tk = Some (mkEntry (RString s) t) → string2ll s = Some n →
    5 * Z.of_nat (length l) < n →
    forM l body w
    = Return tt
        (mkWorld (<[tk := mkEntry (RString (Strconv.Itoa (n - 5 * Z.of_nat (length l)))) t]>
                    (rdb w))
           (events w)).
Proof.
  intros Hinv Hbody l. induction l as [| x l IH]; intros w s n HQ Hw He Hs Hn.
  - simpl. unfold ret. destruct (string2ll_inv _ _ Hs) as [-> _].
    replace (n - 5 * Z.of_nat 0) with n by lia.
    rewrite insert_id by assumption. now destruct w.
  - apply Forall_cons in HQ as [Hx HQ]. simpl length in *.
    change (forM (x :: l) body w) with (bind (body x) (fun _ => forM l body) w).
    unfold bind. rewrite (Hbody x w s n) by (try assumption; lia).
    destruct (string2ll_inv _ _ Hs) as [_ Hr].
    assert (Hr' : Strconv.in_int64 (n - 5) = true).
    { apply (in_int64_between 0 (n - 5) n); [reflexivity | assumption | lia]. }
    rewrite (IH _ (Strconv.Itoa (n - 5)) (n - 5)); simpl.
    + rewrite insert_insert_eq.
      now replace (n - 5 - 5 * Z.of_nat (length l))
        with (n - 5 * Z.of_nat (S (length l))) by lia.
    + assumption.
    + now apply Hinv.
    + apply lookup_insert_eq.
    + now apply string2ll_Itoa.
    + lia.
Qed.

Lemma mapping_insert_ledger (st : Store) (token month sID : string) (e : Entry) :
  mapping (<[remainKey token month := e]> st) sID = mapping st sID.
Proof.
  apply mapping_lookup. apply lookup_insert_ne.
  apply ledger_key_not_mapping. now exists token, month.
Qed.

(** X3.  Billing is per session, not per token: when all the members of a
    stream's active set resolve to one token whose balance covers them
    (more than 5 seconds each), one pass over the stream lowers that
    balance by 5 times the number of members, kicks nobody and changes no
    other key. *)
Theorem stream_bills_every_session
    (month stream token s : string) (t : option Z) (n : Z) (w : World) :
  let key := activeKey stream in
  let tokenKey := remainKey token month in
  let count := Z.of_nat (size (members (rdb w) key)) in
  (∀ sID, sID ∈ members (rdb w) key → mapping (rdb w) sID = Some token) →
  rdb w !! tokenKey = Some (mkEntry (RString s) t) →
  string2ll s = Some n →
  5 * count < n →
  ∃ w', enforceStream month key w = Return tt w' ∧
        ledger (rdb w') tokenKey = Some (n - 5 * count) ∧
        events w' = events w ∧
        ∀ k, k ≠ tokenKey → rdb w' !! k = rdb w !! k.
Proof.
  intros key tokenKey count Hall He Hs Hn.
  unfold key, activeKey. rewrite enforceStream_members.
  change ("active_sids:" +:+ stream) with key.
  set (Inv := fun st : Store =>
                ∀ sID, sID ∈ members (rdb w) key → mapping st sID = Some token).
  set (Q := fun sID : string => sID ∈ members (rdb w) key).
  assert (H1 : ∀ st z, Inv st →
                 Inv (<[tokenKey := mkEntry (RString (Strconv.Itoa z)) t]> st)).
  { intros st z Hst sID HsID. unfold tokenKey.
    rewrite mapping_insert_ledger. now apply Hst. }
  assert (H2 : ∀ sID v s' n', Q sID → Inv (rdb v) →
                 rdb v !! tokenKey = Some (mkEntry (RString s') t) →
                 string2ll s' = Some n' → 5 < n' →
                 enforceSession month key stream sID v
                 = Return tt
                     (mkWorld (<[tokenKey := mkEntry (RString (Strconv.Itoa (n' - 5))) t]>
                                 (rdb v)) (events v))).
  { intros sID v s' n' HsID Hv He' Hs' Hn'.
    apply (enforceSession_bill month key stream sID token s' t n' v); auto. }
  assert (H3 : Forall Q (elements (members (rdb w) key))).
  { apply Forall_forall. intros sID HsID. now apply elem_of_elements in HsID. }
  rewrite (repeat_bill tokenKey t Inv Q _ H1 H2 _ w s n H3 Hall He Hs Hn).
  eexists. split; [reflexivity |]. simpl.
  assert (Hr : Strconv.in_int64 (n - 5 * count) = true).
  { destruct (string2ll_inv _ _ Hs) as [_ Hr].
    apply (in_int64_between 0 _ n); [reflexivity | assumption |].
    unfold count in *. lia. }
  split; [now apply ledger_insert_Itoa |].
  split; [reflexivity |].
  intros k Hk. now apply lookup_insert_ne.
Qed.

Lemma stream_bills_every_session_witness :
  ∃ w', enforceStream "2026-02" "active_sids:stream" Cases.two_sessions = Return tt w' ∧
        ledger (rdb w') "remain:abc:2026-02" = Some 50 ∧
        events w' = [].
Proof.
  destruct (stream_bills_every_session "2026-02" "stream" "abc" "60" None 60
              Cases.two_sessions)
    as (w' & Hrun & Hl & Hev & _).
  - intros sID HsID.
    assert (Hs : sID = "s1" ∨ sID = "s2").
    { change (sID ∈ ({[ "s1"; "s2" ]} : gset string)) in HsID.
      apply elem_of_union in HsID as [H | H];
        apply elem_of_singleton in H; auto. }
    destruct Hs as [-> | ->]; reflexivity.
  - reflexivity.
  - reflexivity.
  - vm_compute. reflexivity.
  - exists w'. repeat split; [exact Hrun | | exact Hev].
    etransitivity; [exact Hl | vm_compute; reflexivity].
Defined.

(** ** A single session from admission to eviction *)

Lemma filter_none {A} (P : A → Prop) `{!∀ x, Decision (P x)} (l : list A) :
  (∀ x, x ∈ l → ¬ P x) → filter P l = [].
Proof.
  induction l as [| y l IH]; intros Hno; [reflexivity |].
  rewrite filter_cons_False by (apply Hno; left).
  apply IH. intros x Hx. apply Hno. now right.
Qed.

Lemma filter_unique {A} (P : A → Prop) `{!∀ x, Decision (P x)} (l : list A) (x : A) :
  NoDup l → x ∈ l → P x → (∀ y, y ∈ l → P y → y = x) → filter P l = [x].
Proof.
  induction l as [| y l IH]; intros Hnd Hx HP Huniq.
  - now apply elem_of_nil in Hx.
  - apply NoDup_cons in Hnd as [Hy Hnd].
    destruct (decide (P y)) as [HPy | HPy].
    + assert (y = x) as -> by (apply Huniq; [left | assumption]).
      rewrite filter_cons_True by assumption. f_equal.
      apply filter_none. intros z Hz HPz.
      assert (z = x) as -> by (apply Huniq; [now right | assumption]).
      contradiction.
    + rewrite filter_cons_False by assumption.
      apply elem_of_cons in Hx as [-> | Hx]; [contradiction |].
      apply IH; try assumption. intros z Hz. apply Huniq. now right.
Qed.

Lemma Keys_sole (st : Store) (stream sID : string) :
  sole_session st stream sID →
  Val (Keys "active_sids:*" st) = [activeKey stream].
Proof.
  intros [[t Hkey] Honly]. unfold Keys. simpl.
  apply filter_unique.
  - apply NoDup_fst_map_to_list.
  - apply list_elem_of_fmap. exists (activeKey stream, mkEntry (RSet {[sID]}) t).
    split; [reflexivity |]. now apply elem_of_map_to_list.
  - apply glob_active_sids. now exists stream.
  - intros k Hk Hg. apply Honly; [assumption |].
    apply list_elem_of_fmap in Hk as ([k' e] & -> & He).
    apply elem_of_map_to_list in He. eauto.
Qed.

Lemma bind_ret_tt (m : M unit) (w : World) : bind m (fun _ => ret tt) w = m w.
Proof. unfold bind, ret. now destruct (m w) as [[] w' | w']. Qed.

(** With one registered session a tick is the step for that session. *)
Lemma tick_sole_session (month stream sID : string) (w : World) :
  sole_session (rdb w) stream sID →
  enforcerTick month w = enforceSession month (activeKey stream) stream sID w.
Proof.
  intros Hsole. unfold enforcerTick. rewrite bind_query.
  rewrite (Keys_sole _ stream sID Hsole). simpl forM. rewrite bind_ret_tt.
  unfold activeKey. rewrite enforceStream_members.
  destruct Hsole as [[t Hkey] _]. unfold members. unfold activeKey in Hkey.
  rewrite Hkey. rewrite elements_singleton. simpl forM. apply bind_ret_tt.
Qed.

Lemma sole_session_insert_ledger
    (st : Store) (stream sID token month : string) (e : Entry) :
  sole_session st stream sID →
  sole_session (<[remainKey token month := e]> st) stream sID.
Proof.
  intros [[t Hkey] Honly].
  assert (HK : is_ledger_key (remainKey token month)) by now exists token, month.
  split.
  - exists t. rewrite lookup_insert_ne; [assumption |].
    now apply ledger_key_not_active.
  - intros k Hg Hk. apply Honly; [assumption |].
    apply glob_active_sids in Hg as [stream' ->].
    rewrite lookup_insert_ne in Hk; [assumption |].
    now apply ledger_key_not_active.
Qed.

Lemma forM_app {A} (l1 l2 : list A) (body : A → M unit) (w : World) :
  forM (l1 ++ l2) body w = bind (forM l1 body) (fun _ => forM l2 body) w.
Proof.
  revert w. induction l1 as [| x l1 IH]; intros w; simpl; [reflexivity |].
  unfold bind. destruct (body x w) as [[] w' | w']; [| reflexivity].
  rewrite IH. reflexivity.
Qed.

(** *** Time passing *)

Lemma elapse_lookup_keep (ms : Z) (st : Store) (k : string) (e : Entry) :
  st !! k = Some e → ttl e = None → elapse ms st !! k = Some e.
Proof.
  intros He Ht. unfold elapse. rewrite lookup_omap, He. simpl.
  unfold age. now rewrite Ht.
Qed.

Lemma elapse_lookup_age (ms t : Z) (st : Store) (k : string) (v : RVal) :
  st !! k = Some (mkEntry v (Some t)) → ms < t →
  elapse ms st !! k = Some (mkEntry v (Some (t - ms))).
Proof.
  intros He Ht. unfold elapse. rewrite lookup_omap, He. simpl.
  unfold age. simpl. destruct (Z.leb_spec (t - ms) 0); [lia | reflexivity].
Qed.

Lemma elapse_lookup_drop (ms t : Z) (st : Store) (k : string) (v : RVal) :
  st !! k = Some (mkEntry v (Some t)) → t <= ms → elapse ms st !! k = None.
Proof.
  intros He Ht. unfold elapse. rewrite lookup_omap, He. simpl.
  unfold age. simpl. destruct (Z.leb_spec (t - ms) 0); [reflexivity | lia].
Qed.

Lemma elapse_lookup_None (ms : Z) (st : Store) (k : string) :
  st !! k = None → elapse ms st !! k = None.
Proof. intros He. unfold elapse. now rewrite lookup_omap, He. Qed.

Lemma elapse_is_Some (ms : Z) (st : Store) (k : string) :
  is_Some (elapse ms st !! k) → is_Some (st !! k).
Proof.
  unfold elapse. rewrite lookup_omap. destruct (st !! k); [eauto |].
  intros [e He]. discriminate He.
Qed.

Lemma sole_session_elapse (ms : Z) (st : Store) (stream sID : string) :
  sole_session st stream sID →
  st !! activeKey stream = Some (mkEntry (RSet {[ sID ]}) None) →
  sole_session (elapse ms st) stream sID.
Proof.
  intros [_ Honly] Hkey. split.
  - exists None. now apply elapse_lookup_keep.
  - intros k Hg Hk. apply Honly; [assumption |]. now apply (elapse_is_Some ms).
Qed.

Lemma startEnforcer_cons (elapsed : Z) (month : string) (rest : list (Z * string))
    (w : World) :
  startEnforcer ((elapsed, month) :: rest) w
  = bind (enforcerTick month) (fun _ => startEnforcer rest)
      (mkWorld (elapse elapsed (rdb w)) (events w)).
Proof. reflexivity. Qed.

(** *** One viewer, tick by tick *)

Section OneViewer.
Variables month stream sID token : string.

#[local] Abbreviation viewer := (fun st => one_viewer st month stream sID token).
#[local] Abbreviation orphan := (fun st => orphaned st month stream sID token).
#[local] Abbreviation tokenKey := (remainKey token month).

Lemma one_viewer_mapping (st : Store) (n : Z) (tm : option Z) :
  viewer st n tm → mapping st sID = Some token.
Proof.
  intros (_ & _ & Hmap & Ht & _). unfold mapping. unfold mapKey in Hmap.
  rewrite Hmap. now destruct (decide (token = "")).
Qed.

Lemma one_viewer_elapse (ms : Z) (st : Store) (n : Z) (tm : option Z) :
  viewer st n tm → (∀ t, tm = Some t → ms < t) →
  viewer (elapse ms st) n (option_map (fun t => t - ms) tm).
Proof.
  intros (Hsole & Hset & Hmap & Ht & Hl & Hr) Htm.
  split; [now apply sole_session_elapse |].
  split; [now apply elapse_lookup_keep |].
  split; [| split; [assumption |]; split; [now apply elapse_lookup_keep | assumption]].
  destruct tm as [t |]; simpl.
  - apply elapse_lookup_age; [assumption | now apply Htm].
  - now apply elapse_lookup_keep.
Qed.

(** A tick on time while more than one tick is left. *)
Lemma one_tick_bills (n : Z) (tm : option Z) (w : World) :
  viewer (rdb w) n tm → 5 < n → (∀ t, tm = Some t → TickerPeriod < t) →
  ∃ w', startEnforcer (on_time 1 month) w = Return tt w' ∧
        events w' = events w ∧
        viewer (rdb w') (n - 5) (option_map (fun t => t - TickerPeriod) tm).
Proof.
  intros Hv Hn Htm.
  pose proof (one_viewer_elapse TickerPeriod _ _ _ Hv Htm) as Hv0.
  set (w0 := mkWorld (elapse TickerPeriod (rdb w)) (events w)).
  change (viewer (rdb w0) n (option_map (fun t => t - TickerPeriod) tm)) in Hv0.
  unfold on_time. simpl replicate. rewrite startEnforcer_cons. fold w0.
  unfold bind.
  pose proof Hv0 as (Hsole & Hset & Hmap & Ht & Hl & Hr).
  rewrite (tick_sole_session month stream sID w0 Hsole).
  rewrite (enforceSession_bill month _ stream sID token _ None n w0
             (one_viewer_mapping _ _ _ Hv0) Hl (string2ll_Itoa n Hr) Hn).
  assert (Hr' : Strconv.in_int64 (n - 5) = true).
  { apply (in_int64_between 0 (n - 5) n); [reflexivity | assumption | lia]. }
  assert (HK : is_ledger_key tokenKey) by now exists token, month.
  eexists. split; [reflexivity |]. cbn [rdb events].
  split; [reflexivity |].
  split; [now apply sole_session_insert_ledger |].
  split; [rewrite lookup_insert_ne; [assumption | now apply ledger_key_not_active] |].
  split; [rewrite lookup_insert_ne; [assumption | now apply ledger_key_not_mapping] |].
  split; [assumption |].
  split; [apply lookup_insert_eq | assumption].
Qed.

Lemma one_viewer_eq (st : Store) (n n' : Z) (tm tm' : option Z) :
  n = n' → tm = tm' → viewer st n tm → viewer st n' tm'.
Proof. now intros -> ->. Qed.

Lemma startEnforcer_app (l1 l2 : list (Z * string)) (w : World) :
  startEnforcer (l1 ++ l2) w
  = bind (startEnforcer l1) (fun _ => startEnforcer l2) w.
Proof. apply forM_app. Qed.

(** Ticks on time in a row while more than one tick is left and the
    mapping lives. *)
Lemma ticks_bill (j : nat) :
  ∀ (n : Z) (tm : option Z) (w : World),
    viewer (rdb w) n tm →
    5 * Z.of_nat j < n →
    (∀ t, tm = Some t → TickerPeriod * Z.of_nat j < t) →
    ∃ w', startEnforcer (on_time j month) w = Return tt w' ∧
          events w' = events w ∧
          viewer (rdb w') (n - 5 * Z.of_nat j)
            (option_map (fun t => t - TickerPeriod * Z.of_nat j) tm).
Proof.
  induction j as [| j IH]; intros n tm w Hv Hn Htm.
  - exists w. split; [reflexivity |]. split; [reflexivity |].
    apply (one_viewer_eq _ n _ tm); [lia | | assumption].
    destruct tm; simpl; [f_equal; lia | reflexivity].
  - destruct (one_tick_bills n tm w Hv) as (w1 & Hrun1 & Hev1 & Hv1); [lia | |].
    { intros t Ht. specialize (Htm t Ht). unfold TickerPeriod in *. lia. }
    destruct (IH _ _ w1 Hv1) as (w' & Hrun & Hev & Hv'); [lia | |].
    { intros t' Ht'. destruct tm as [t |]; [| discriminate].
      injection Ht' as <-. specialize (Htm t eq_refl).
      unfold TickerPeriod in *. lia. }
    exists w'. split; [| split; [congruence |]].
    + change (on_time (S j) month) with (on_time 1 month ++ on_time j month)%list.
      rewrite startEnforcer_app. unfold bind at 1. now rewrite Hrun1.
    + revert Hv'. apply one_viewer_eq; [lia |].
      destruct tm; simpl; [f_equal; lia | reflexivity].
Qed.

(** The tick on time that finds at most one tick left. *)
Lemma one_tick_kicks (n : Z) (tm : option Z) (w : World) :
  viewer (rdb w) n tm → 0 < n <= 5 → (∀ t, tm = Some t → TickerPeriod < t) →
  ∃ w', startEnforcer (on_time 1 month) w = Return tt w' ∧
        events w' = (events w ++ [CallKick (mkKickReq stream sID)])%list ∧
        ledger (rdb w') tokenKey = Some (n - 5) ∧
        ¬ registered (rdb w') stream sID ∧
        mapping (rdb w') sID = None.
Proof.
  intros Hv Hn Htm.
  pose proof (one_viewer_elapse TickerPeriod _ _ _ Hv Htm) as Hv0.
  set (w0 := mkWorld (elapse TickerPeriod (rdb w)) (events w)).
  change (viewer (rdb w0) n (option_map (fun t => t - TickerPeriod) tm)) in Hv0.
  unfold on_time. simpl replicate. rewrite startEnforcer_cons. fold w0.
  unfold bind.
  pose proof Hv0 as (Hsole & Hset & Hmap & Ht & Hl & Hr).
  rewrite (tick_sole_session month stream sID w0 Hsole).
  rewrite (enforceSession_run _ _ _ _ token) by exact (one_viewer_mapping _ _ _ Hv0).
  assert (HK : is_ledger_key tokenKey) by now exists token, month.
  assert (Hr5 : Strconv.in_int64 (n - 5) = true).
  { apply (in_int64_between (-5) _ n); [reflexivity | assumption | lia]. }
  destruct (DecrBy_spec tokenKey 5 n (rdb w0)) as [t' Hd].
  { left. unfold ledger. rewrite Hl. now apply string2ll_Itoa. }
  { exact Hr5. }
  rewrite Hd. cbn [fst snd Val ok].
  destruct (Z.leb_spec (n - 5) 0) as [_ | Hgt]; [| lia].
  eexists. split; [reflexivity |]. cbn [rdb events].
  split; [reflexivity |].
  split.
  { rewrite <- (ledger_insert_Itoa (rdb w0) tokenKey (n - 5) t' Hr5).
    apply ledger_lookup.
    rewrite lookup_delete_ne
      by (apply not_eq_sym; now apply ledger_key_not_mapping).
    apply SRem_lookup_ne. now apply ledger_key_not_active. }
  split; [| apply mapping_lookup_None].
  unfold registered.
  rewrite (members_lookup (SRem (activeKey stream) sID
             (<[tokenKey := mkEntry (RString (Strconv.Itoa (n - 5))) t']> (rdb w0))).1)
    by (apply lookup_delete_ne; apply mapping_not_active).
  rewrite SRem_members. intros [_ Hnot]%elem_of_difference.
  apply Hnot. now apply elem_of_singleton.
Qed.

(** X4.  A store with one registered session, as admission leaves it,
    whose token holds [n > 0] seconds, with ticks arriving on time: if the
    mapping has no expiry or lives longer than [ceil (n / 5)] ticker
    periods, the ticks before the [ceil (n / 5)]-th only lower the balance
    by 5 each and leave the session registered, and the [ceil (n / 5)]-th
    tick takes the balance to a value in (-5, 0], sends the one kick and
    unregisters the session.  The token is thus billed in whole ticks, up
    to 4 seconds more than it had.  (With the two hours that admission
    gives the mapping this covers balances up to 7195 seconds.) *)
Theorem session_lifetime (n : Z) (tm : option Z) (w : World) :
  one_viewer (rdb w) month stream sID token n tm →
  0 < n →
  let last := Z.to_nat ((n + 4) / 5) in
  (∀ t, tm = Some t → TickerPeriod * Z.of_nat last < t) →
  (∀ j, (j < last)%nat →
     ∃ w', startEnforcer (on_time j month) w = Return tt w' ∧
           events w' = events w ∧
           ledger (rdb w') tokenKey = Some (n - 5 * Z.of_nat j) ∧
           registered (rdb w') stream sID) ∧
  (∃ w', startEnforcer (on_time last month) w = Return tt w' ∧
         events w' = (events w ++ [CallKick (mkKickReq stream sID)])%list ∧
         ledger (rdb w') tokenKey = Some (n - 5 * Z.of_nat last) ∧
         -5 < n - 5 * Z.of_nat last <= 0 ∧
         ¬ registered (rdb w') stream sID ∧
         mapping (rdb w') sID = None).
Proof.
  intros Hv Hn last Htm.
  assert (Hq : 5 * ((n + 4) / 5) <= n + 4 < 5 * ((n + 4) / 5) + 5).
  { pose proof (Z.mul_div_le (n + 4) 5 ltac:(lia)).
    pose proof (Z.mul_succ_div_gt (n + 4) 5 ltac:(lia)). lia. }
  assert (Hlast : Z.of_nat last = (n + 4) / 5) by (unfold last; lia).
  assert (Hbefore : ∀ j, (j < last)%nat →
            ∃ w', startEnforcer (on_time j month) w = Return tt w' ∧
                  events w' = events w ∧
                  viewer (rdb w') (n - 5 * Z.of_nat j)
                    (option_map (fun t => t - TickerPeriod * Z.of_nat j) tm)).
  { intros j Hj. apply ticks_bill; [assumption | lia |].
    intros t Ht. specialize (Htm t Ht). unfold TickerPeriod in *. lia. }
  split.
  - intros j Hj. destruct (Hbefore j Hj) as (w' & Hrun & Hev & Hv').
    exists w'. split; [exact Hrun |]. split; [exact Hev |].
    destruct Hv' as (_ & Hset & _ & _ & Hl & Hr).
    split.
    + unfold ledger. rewrite Hl. now apply string2ll_Itoa.
    + unfold registered, members. rewrite Hset. now apply elem_of_singleton.
  - destruct last as [| j] eqn:Hl; [lia |].
    destruct (Hbefore j ltac:(lia)) as (w1 & Hrun1 & Hev1 & Hv1).
    destruct (one_tick_kicks _ _ w1 Hv1) as (w' & Hrun & Hev & Hled & Hreg & Hmap);
      [lia | |].
    { intros t' Ht'. destruct tm as [t |]; [| discriminate].
      injection Ht' as <-. specialize (Htm t eq_refl).
      unfold TickerPeriod in *. lia. }
    exists w'. split; [| split; [now rewrite Hev, Hev1 |]].
    + unfold on_time. rewrite replicate_S_end.
      change (startEnforcer (on_time j month ++ on_time 1 month) w = Return tt w').
      rewrite startEnforcer_app. unfold bind. now rewrite Hrun1.
    + split; [rewrite Hled; f_equal; lia |].
      split; [lia |]. now split.
Qed.

(** The mapping's time to live runs out during the first tick that comes
    at or after it. *)
Lemma one_tick_expires (n t : Z) (w : World) :
  viewer (rdb w) n (Some t) → t <= TickerPeriod →
  ∃ w', startEnforcer (on_time 1 month) w = Return tt w' ∧
        events w' = events w ∧ orphan (rdb w') n.
Proof.
  intros (Hsole & Hset & Hmap & Ht & Hl & Hr) Hle.
  set (w0 := mkWorld (elapse TickerPeriod (rdb w)) (events w)).
  assert (Ho : orphan (rdb w0) n).
  { split; [now apply sole_session_elapse |].
    split; [now apply elapse_lookup_keep |].
    split; [now apply (elapse_lookup_drop _ t _ _ (RString token)) |].
    split; [now apply elapse_lookup_keep | assumption]. }
  unfold on_time. simpl replicate. rewrite startEnforcer_cons. fold w0.
  unfold bind. destruct Ho as (Hsole0 & Hset0 & Hmap0 & Hl0 & Hr0).
  rewrite (tick_sole_session month stream sID w0 Hsole0).
  rewrite enforceSession_skip
    by (unfold mapping; unfold mapKey in Hmap0; now rewrite Hmap0).
  exists w0. split; [reflexivity |]. split; [reflexivity |].
  repeat split; first [assumption | apply Hsole0].
Qed.

(** Once the mapping is gone a tick bills nothing and kicks nobody. *)
Lemma ticks_on_orphan (j : nat) :
  ∀ (n : Z) (w : World),
    orphan (rdb w) n →
    ∃ w', startEnforcer (on_time j month) w = Return tt w' ∧
          events w' = events w ∧ orphan (rdb w') n.
Proof.
  induction j as [| j IH]; intros n w Ho.
  - exists w. split; [reflexivity |]. split; [reflexivity | exact Ho].
  - set (w0 := mkWorld (elapse TickerPeriod (rdb w)) (events w)).
    assert (Ho0 : orphan (rdb w0) n).
    { destruct Ho as (Hsole & Hset & Hmap & Hl & Hr).
      split; [now apply sole_session_elapse |].
      split; [now apply elapse_lookup_keep |].
      split; [now apply elapse_lookup_None |].
      split; [now apply elapse_lookup_keep | assumption]. }
    destruct (IH n w0 Ho0) as (w' & Hrun & Hev & Ho').
    exists w'. split; [| now split].
    unfold on_time. simpl replicate. rewrite startEnforcer_cons. fold w0.
    unfold bind. destruct Ho0 as (Hsole0 & _ & Hmap0 & _).
    rewrite (tick_sole_session month stream sID w0 Hsole0).
    rewrite enforceSession_skip
      by (unfold mapping; unfold mapKey in Hmap0; now rewrite Hmap0).
    exact Hrun.
Qed.

(** X13.  The two-hour expiry of the mapping caps what a session can be
    billed: for one registered session whose mapping has [t > 0]
    milliseconds to live, with ticks on time, only the
    [paid = floor ((t - 1) / 5000)] ticks that come before the expiry
    bill.  If the balance [n] is more than [5 * paid], then after any
    larger number of ticks the balance stands at [n - 5 * paid], the
    mapping is gone, the session id is still in its stream's active set,
    and the Enforcer has sent no kick. *)
Theorem session_outlives_mapping (n t : Z) (w : World) (j : nat) :
  one_viewer (rdb w) month stream sID token n (Some t) →
  0 < t →
  let paid := (t - 1) / TickerPeriod in
  5 * paid < n →
  paid < Z.of_nat j →
  ∃ w', startEnforcer (on_time j month) w = Return tt w' ∧
        events w' = events w ∧
        ledger (rdb w') tokenKey = Some (n - 5 * paid) ∧
        registered (rdb w') stream sID ∧
        mapping (rdb w') sID = None.
Proof.
  intros Hv Ht paid Hn Hj.
  assert (Hq : TickerPeriod * paid <= t - 1 < TickerPeriod * paid + TickerPeriod).
  { unfold paid, TickerPeriod.
    pose proof (Z.mul_div_le (t - 1) 5000 ltac:(lia)).
    pose proof (Z.mul_succ_div_gt (t - 1) 5000 ltac:(lia)). lia. }
  assert (Hp0 : 0 <= paid) by (unfold TickerPeriod in Hq; lia).
  set (p := Z.to_nat paid).
  assert (Hp : Z.of_nat p = paid) by (unfold p; lia).
  assert (Hsplit : on_time j month
                   = (on_time p month ++ on_time 1 month ++ on_time (j - p - 1) month)%list).
  { unfold on_time. rewrite <- !replicate_add. f_equal. lia. }
  destruct (ticks_bill p n (Some t) w Hv) as (w1 & Hrun1 & Hev1 & Hv1); [lia | |].
  { intros t' [= <-]. lia. }
  simpl option_map in Hv1.
  destruct (one_tick_expires _ _ w1 Hv1) as (w2 & Hrun2 & Hev2 & Ho2); [lia |].
  destruct (ticks_on_orphan (j - p - 1) _ w2 Ho2) as (w' & Hrun & Hev & Ho).
  exists w'. split; [| split; [congruence |]].
  - rewrite Hsplit, startEnforcer_app. unfold bind. rewrite Hrun1.
    rewrite startEnforcer_app. unfold bind. now rewrite Hrun2.
  - destruct Ho as (_ & Hset & Hmap & Hl & Hr). rewrite Hp in *.
    split; [unfold ledger; rewrite Hl; now apply string2ll_Itoa |].
    split; [unfold registered, members; rewrite Hset; now apply elem_of_singleton |].
    unfold mapping. unfold mapKey in Hmap. now rewrite Hmap.
Qed.

End OneViewer.

Lemma twelve_left_one_viewer :
  one_viewer (rdb Cases.twelve_left) "2026-02" "stream" "s1" "abc" 12 (Some 7200000).
Proof.
  split; [split |].
  - exists None. reflexivity.
  - intros k Hg [e He]. apply glob_active_sids in Hg as [x ->].
    unfold Cases.twelve_left in He. simpl rdb in He.
    rewrite lookup_insert_ne in He by (simpl; discriminate).
    rewrite lookup_insert_ne in He by (simpl; discriminate).
    apply lookup_singleton_Some in He as [Hk _]. now rewrite <- Hk.
  - repeat split; discriminate.
Qed.

Lemma session_lifetime_witness :
  ∃ w', startEnforcer (on_time 3 "2026-02") Cases.twelve_left = Return tt w' ∧
        events w' = [CallKick (mkKickReq "stream" "s1")] ∧
        ledger (rdb w') "remain:abc:2026-02" = Some (-3) ∧
        mapping (rdb w') "s1" = None.
Proof.
  destruct (proj2 (session_lifetime "2026-02" "stream" "s1" "abc" 12 (Some 7200000)
                     Cases.twelve_left twelve_left_one_viewer ltac:(lia)
                     ltac:(intros t [= <-]; reflexivity)))
    as (w' & Hrun & Hev & Hl & _ & _ & Hmap).
  exists w'. repeat split; [exact Hrun | exact Hev | exact Hl | exact Hmap].
Defined.

Lemma expiring_one_viewer :
  one_viewer (rdb Cases.expiring) "2026-02" "stream" "s1" "abc" 12 (Some 7000).
Proof.
  split; [split |].
  - exists None. reflexivity.
  - intros k Hg [e He]. apply glob_active_sids in Hg as [x ->].
    unfold Cases.expiring in He. simpl rdb in He.
    rewrite lookup_insert_ne in He by (simpl; discriminate).
    rewrite lookup_insert_ne in He by (simpl; discriminate).
    apply lookup_singleton_Some in He as [Hk _]. now rewrite <- Hk.
  - repeat split; discriminate.
Qed.

Lemma session_outlives_mapping_witness :
  ∃ w', startEnforcer (on_time 3 "2026-02") Cases.expiring = Return tt w' ∧
        events w' = [] ∧
        ledger (rdb w') "remain:abc:2026-02" = Some 7 ∧
        mapping (rdb w') "s1" = None.
Proof.
  destruct (session_outlives_mapping "2026-02" "stream" "s1" "abc" 12 7000
              Cases.expiring 3 expiring_one_viewer ltac:(lia) ltac:(reflexivity)
              ltac:(reflexivity))
    as (w' & Hrun & Hev & Hl & _ & Hmap).
  exists w'. repeat split; [exact Hrun | exact Hev | exact Hl | exact Hmap].
Defined.

(** ** The Enforcer only ever shrinks the registry *)

Lemma shrinks_refl (P : string → string → Prop) (w : World) : shrinks_by P w w.
Proof.
  split; [reflexivity |]. split; [now right |].
  exists []. split; [now rewrite app_nil_r | constructor].
Qed.

Lemma kicked_out_later (P : string → string → Prop) (w w' : World) (e : Event) :
  shrinks_by P w w' → kicked_out P (rdb w) e → kicked_out P (rdb w') e.
Proof.
  intros (Hmem & Hmap & _) (stream & sid & -> & HP & Hout & Hgone).
  exists stream, sid. repeat split; [assumption | |].
  - intros Hin. apply Hout. now apply Hmem.
  - destruct (Hmap sid) as [H | H]; [assumption | congruence].
Qed.

Lemma shrinks_trans (P : string → string → Prop) (w1 w2 w3 : World) :
  shrinks_by P w1 w2 → shrinks_by P w2 w3 → shrinks_by P w1 w3.
Proof.
  intros H12 H23.
  pose proof H12 as (Hmem1 & Hmap1 & ks1 & Hev1 & Hk1).
  pose proof H23 as (Hmem2 & Hmap2 & ks2 & Hev2 & Hk2).
  split; [intros k; etransitivity; [apply Hmem2 | apply Hmem1] |].
  split.
  { intros sid. destruct (Hmap2 sid) as [H | H]; [now left |].
    rewrite H. apply Hmap1. }
  exists (ks1 ++ ks2)%list. split.
  - now rewrite Hev2, Hev1, app_assoc.
  - apply Forall_app. split; [| assumption].
    eapply Forall_impl; [exact Hk1 |]. intros e He.
    now apply (kicked_out_later P w2 w3).
Qed.

Lemma shrinks_mono (P Q : string → string → Prop) (w w' : World) :
  (∀ stream sid, P stream sid → Q stream sid) →
  shrinks_by P w w' → shrinks_by Q w w'.
Proof.
  intros HPQ (Hmem & Hmap & ks & Hev & Hk).
  split; [assumption |]. split; [assumption |].
  exists ks. split; [assumption |].
  eapply Forall_impl; [exact Hk |].
  intros e (stream & sid & -> & HP & Hrest). exists stream, sid. auto.
Qed.

Lemma members_DecrBy (key k : string) (n : Z) (st : Store) :
  members (DecrBy key n st).1 k ⊆ members st k.
Proof.
  destruct (decide (k = key)) as [-> | Hne].
  - unfold DecrBy, members.
    destruct (st !! key) as [[[s | m] t] |] eqn:He;
      [destruct (string2ll s); [destruct (Strconv.in_int64 _) |] | |];
      simpl; rewrite ?He, ?lookup_insert_eq; reflexivity.
  - now rewrite (members_lookup st) by now apply DecrBy_lookup_ne.
Qed.

Lemma members_SRem (key member k : string) (st : Store) :
  members (SRem key member st).1 k ⊆ members st k.
Proof.
  destruct (decide (k = key)) as [-> | Hne].
  - rewrite SRem_members. apply subseteq_difference_l. reflexivity.
  - now rewrite (members_lookup st) by now apply SRem_lookup_ne.
Qed.

Lemma members_delete (key k : string) (st : Store) :
  members (delete key st) k ⊆ members st k.
Proof.
  destruct (decide (k = key)) as [-> | Hne].
  - unfold members at 1. rewrite lookup_delete_eq. apply empty_subseteq.
  - now rewrite (members_lookup st) by now apply lookup_delete_ne.
Qed.

(** The step for one session: at most the kick of that session. *)
Lemma enforceSession_shrinks (month stream sID : string) (w : World) :
  shrinks_by (fun s x => s = stream ∧ x = sID) w
    (after (enforceSession month (activeKey stream) stream sID w)).
Proof.
  destruct (mapping (rdb w) sID) as [token |] eqn:Hm.
  2: { rewrite enforceSession_skip by assumption. apply shrinks_refl. }
  rewrite (enforceSession_run _ _ _ _ token) by assumption.
  set (tk := remainKey token month).
  assert (HK : is_ledger_key tk) by now exists token, month.
  cbv zeta. destruct (Val (DecrBy tk 5 (rdb w)).2 <=? 0);
    unfold shrinks_by; cbn [after rdb events].
  - split; [| split].
    + intros k. etransitivity; [apply members_delete |].
      etransitivity; [apply members_SRem | apply members_DecrBy].
    + intros sid. destruct (decide (mapKey sid = mapKey sID)) as [-> | Hne].
      * left. apply lookup_delete_eq.
      * right. rewrite lookup_delete_ne by congruence.
        rewrite SRem_lookup_ne by apply mapping_not_active.
        apply DecrBy_lookup_ne. apply not_eq_sym.
        now apply ledger_key_not_mapping.
    + exists [CallKick (mkKickReq stream sID)]. split; [reflexivity |].
      constructor; [| constructor].
      exists stream, sID. repeat split.
      * intros Hin. apply members_delete in Hin.
        rewrite SRem_members in Hin.
        apply elem_of_difference in Hin as [_ Hnot].
        apply Hnot. now apply elem_of_singleton.
      * apply lookup_delete_eq.
  - split; [intros k; apply members_DecrBy |]. split.
    + intros sid. right. apply DecrBy_lookup_ne. apply not_eq_sym.
      now apply ledger_key_not_mapping.
    + exists []. split; [now rewrite app_nil_r | constructor].
Qed.

Lemma forM_sessions_shrink (month stream : string) (l : list string) (w : World) :
  shrinks_by (fun s x => s = stream ∧ x ∈ l) w
    (after (forM l (enforceSession month (activeKey stream) stream) w)).
Proof.
  revert w. induction l as [| sID l IH]; intros w; [apply shrinks_refl |].
  simpl forM. unfold bind.
  pose proof (enforceSession_shrinks month stream sID w) as Hstep.
  destruct (enforceSession_returns month (activeKey stream) stream sID w)
    as ([] & w1 & Hrun).
  rewrite Hrun in Hstep |- *. simpl in Hstep.
  apply (shrinks_trans _ w w1).
  - eapply shrinks_mono; [| exact Hstep].
    intros s x [-> ->]. split; [reflexivity | left].
  - eapply shrinks_mono; [| apply IH].
    intros s x [-> Hx]. split; [reflexivity | now right].
Qed.

Lemma enforceStream_returns (month key : string) : returns (enforceStream month key).
Proof.
  unfold enforceStream. apply returns_bind; [apply returns_query |].
  intros sids. apply returns_forM. intros sID. apply enforceSession_returns.
Qed.

(** The pass over one stream kicks only members of its active set. *)
Lemma enforceStream_shrinks (month stream : string) (w : World) :
  shrinks_by (registered (rdb w)) w (after (enforceStream month (activeKey stream) w)).
Proof.
  unfold activeKey. rewrite enforceStream_members.
  eapply shrinks_mono; [| apply forM_sessions_shrink].
  intros s x [-> Hx]. unfold registered. now apply elem_of_elements in Hx.
Qed.

Lemma forM_streams_shrink (month : string) (keys : list string) (w0 w : World) :
  (∀ k, k ∈ keys → ∃ stream, k = activeKey stream) →
  shrinks_by (registered (rdb w0)) w0 w →
  shrinks_by (registered (rdb w0)) w0 (after (forM keys (enforceStream month) w)).
Proof.
  revert w. induction keys as [| key keys IH]; intros w Hkeys Hw; [exact Hw |].
  simpl forM. unfold bind.
  destruct (Hkeys key) as [stream ->]; [left |].
  pose proof (enforceStream_shrinks month stream w) as Hstep.
  destruct (enforceStream_returns month (activeKey stream) w) as ([] & w1 & Hrun).
  rewrite Hrun in Hstep |- *. simpl in Hstep.
  apply IH; [intros k Hk; apply Hkeys; now right |].
  apply (shrinks_trans _ w0 w); [assumption |].
  eapply shrinks_mono; [| exact Hstep].
  intros s x Hx. destruct Hw as [Hmem _]. now apply Hmem.
Qed.

(** X5.  A tick never registers anything: it always runs to its end, no
    active set gains a member and no mapping is written or changed, only
    deleted.  The events it adds are kicks sent by the Enforcer itself,
    each for a session that was in that stream's active set when the tick
    began, and at the end of the tick every kicked session is out of the
    set and has no mapping. *)
Theorem tick_only_shrinks_registry (month : string) (w : World) :
  ∃ w' ks,
    enforcerTick month w = Return tt w' ∧
    events w' = (events w ++ ks)%list ∧
    (∀ e, e ∈ ks →
       ∃ stream sid, e = CallKick (mkKickReq stream sid) ∧
                     sid ∈ members (rdb w) (activeKey stream) ∧
                     (sid ∉ members (rdb w') (activeKey stream)) ∧
                     mapping (rdb w') sid = None) ∧
    (∀ k, members (rdb w') k ⊆ members (rdb w) k) ∧
    (∀ sid, mapping (rdb w') sid = None ∨ mapping (rdb w') sid = mapping (rdb w) sid).
Proof.
  destruct (enforcerTick_returns month w) as ([] & w' & Hrun).
  assert (Hs : shrinks_by (registered (rdb w)) w w').
  { change w' with (after (Return tt w')). rewrite <- Hrun.
    unfold enforcerTick. rewrite bind_query.
    apply forM_streams_shrink; [| apply shrinks_refl].
    intros k [Hg _]%Keys_elem. now apply glob_active_sids in Hg. }
  destruct Hs as (Hmem & Hmap & ks & Hev & Hk).
  exists w', ks. split; [exact Hrun |]. split; [exact Hev |].
  split; [| split; [exact Hmem |]].
  - intros e He. rewrite Forall_forall in Hk.
    destruct (Hk e He) as (stream & sid & -> & Hreg & Hout & Hgone).
    exists stream, sid. repeat split; try assumption.
    unfold mapping. fold (mapKey sid). now rewrite Hgone.
  - intros sid. destruct (Hmap sid) as [H | H].
    + left. unfold mapping. fold (mapKey sid). now rewrite H.
    + right. now apply mapping_lookup.
Qed.

(** ** Admission and the registry *)

Lemma SetNX_is_Some (key v : string) (st : Store) : is_Some ((SetNX key v st).1 !! key).
Proof.
  unfold SetNX. destruct (st !! key) eqn:He; simpl.
  - rewrite He. eauto.
  - rewrite lookup_insert_eq. eauto.
Qed.

Lemma SetNX_lookup_ne (key v k : string) (st : Store) :
  k ≠ key → (SetNX key v st).1 !! k = st !! k.
Proof.
  intros Hne. unfold SetNX. destruct (st !! key); simpl; [reflexivity |].
  now apply lookup_insert_ne.
Qed.

Lemma SAdd_members (key member : string) (st : Store) :
  (∀ s t, st !! key ≠ Some (mkEntry (RString s) t)) →
  members (SAdd key member st).1 key = {[member]} ∪ members st key.
Proof.
  intros Hns. unfold SAdd, members.
  destruct (st !! key) as [[[s | m] t] |] eqn:He; simpl.
  - now destruct (Hns s t).
  - now rewrite lookup_insert_eq.
  - rewrite lookup_insert_eq. now rewrite union_empty_r_L.
Qed.

Lemma SAdd_idem (key member : string) (st : Store) :
  (SAdd key member (SAdd key member st).1).1 = (SAdd key member st).1.
Proof.
  unfold SAdd.
  destruct (st !! key) as [[[s | m] t] |] eqn:He; simpl;
    rewrite ?He, ?lookup_insert_eq; simpl; rewrite ?insert_insert_eq.
  - reflexivity.
  - now rewrite (assoc_L (∪)), union_idemp_L.
  - now rewrite union_idemp_L.
Qed.

(** Adding a member and removing it again gives the key back as it was,
    unless it held an empty set. *)
Lemma SRem_SAdd (key member : string) (st : Store) :
  member ∉ members st key →
  (∀ t, st !! key ≠ Some (mkEntry (RSet ∅) t)) →
  (SRem key member (SAdd key member st).1).1 = st.
Proof.
  intros Hnot Hne. unfold SAdd.
  destruct (st !! key) as [[[s | m] t] |] eqn:He; simpl.
  - unfold SRem. now rewrite He.
  - unfold members in Hnot. rewrite He in Hnot.
    unfold SRem. rewrite lookup_insert_eq.
    destruct (decide (member ∈ {[member]} ∪ m)) as [_ | Hn];
      [| exfalso; apply Hn; apply elem_of_union_l; now apply elem_of_singleton].
    assert (Hm : ({[member]} ∪ m) ∖ {[member]} = m).
    { apply set_eq. intros x.
      rewrite elem_of_difference, elem_of_union, !elem_of_singleton.
      split; [intros [[-> | Hx] Hn]; [contradiction | assumption] |].
      intros Hx. split; [now right | intros ->; contradiction]. }
    rewrite Hm. simpl.
    destruct (decide (m = ∅)) as [-> | _]; [now destruct (Hne t) |].
    rewrite insert_insert_eq. now apply insert_id.
  - unfold SRem. rewrite lookup_insert_eq.
    destruct (decide (member ∈ ({[member]} : gset string))) as [_ | Hn];
      [| exfalso; apply Hn; now apply elem_of_singleton].
    simpl. rewrite difference_diag_L.
    destruct (decide ((∅ : gset string) = ∅)) as [_ | Hn]; [| done].
    rewrite delete_insert_eq. now apply delete_id.
Qed.

Section Registration.
Context {URL : Type}.
Variable url_Parse : string → option URL.
Variable Query_Get : URL → string → string.

(** The handler on a bound body with a token, in terms of the balance it
    reads after SETNX. *)
Lemma start_run (month : string) (b : Bound) (u : URL) (w : World) :
  bindErr b = false →
  url_Parse (Url (msg b)) = Some u →
  Query_Get u "token" ≠ "" →
  let token := Query_Get u "token" in
  let sID := GetID (msg b) in
  let stream := StreamName (msg b) in
  let st1 := (SetNX (remainKey token month) (Strconv.Itoa DefaultQuota) (rdb w)).1 in
  on_sub_start url_Parse Query_Get month b w
  = if Val (Int (Get (remainKey token month) st1)) <=? 0
    then Return (Some (mkReply 200 1002 (Some "no quota")))
           (mkWorld st1 (events w ++ [GoSleepKick 500 (mkKickReq stream sID)]))
    else Return (Some (mkReply 200 0 None))
           (mkWorld (SAdd (activeKey stream) sID
                       (Set_ (mapKey sID) token 7200000 st1)).1 (events w)).
Proof.
  intros Hb Hu Ht token sID stream st1. unfold on_sub_start.
  rewrite Hb, Hu. destruct (decide (Query_Get u "token" = "")); [done |].
  step_m. cbn [rdb events]. fold token st1.
  destruct (Val (Int (Get (remainKey token month) st1)) <=? 0); step_m; reflexivity.
Qed.

End Registration.

Section Registered.
Context {URL : Type}.
Variable url_Parse : string → option URL.
Variable Query_Get : URL → string → string.

#[local] Abbreviation start := (on_sub_start url_Parse Query_Get).

(** X6.  A start notification whose token has a positive balance is
    answered with code 0 and registered: the session id is mapped to the
    token with the two-hour expiry, replacing any earlier mapping, and is
    added to its stream's active set.  The admission itself costs nothing:
    every other key, the token's ledger entry included, stays as it was,
    and no kick is sent or scheduled. *)
Theorem start_admits_and_registers
    (month : string) (b : Bound) (u : URL) (n : Z) (w : World) :
  let token := Query_Get u "token" in
  let sID := GetID (msg b) in
  let key := activeKey (StreamName (msg b)) in
  bindErr b = false →
  url_Parse (Url (msg b)) = Some u →
  token ≠ "" →
  ledger (rdb w) (remainKey token month) = Some n →
  0 < n →
  (∀ s t, rdb w !! key ≠ Some (mkEntry (RString s) t)) →
  ∃ w', start month b w = Return (Some (mkReply 200 0 None)) w' ∧
        events w' = events w ∧
        rdb w' !! mapKey sID = Some (mkEntry (RString token) (Some 7200000)) ∧
        members (rdb w') key = {[sID]} ∪ members (rdb w) key ∧
        ∀ k, k ≠ mapKey sID → k ≠ key → rdb w' !! k = rdb w !! k.
Proof.
  intros token sID key Hb Hu Ht Hl Hn Hset.
  rewrite (start_run url_Parse Query_Get month b u w Hb Hu Ht). cbv zeta.
  fold token sID key.
  assert (HK : is_ledger_key (remainKey token month)) by now exists token, month.
  unfold ledger in Hl.
  destruct (rdb w !! remainKey token month) as [[[s | m] t] |] eqn:He;
    try discriminate.
  rewrite (SetNX_present _ _ _ _ He). cbn [fst].
  unfold Get, Int. rewrite He. simpl.
  rewrite (Atoi_string2ll _ _ Hl).
  destruct (Z.leb_spec n 0) as [| _]; [lia |].
  eexists. split; [reflexivity |]. cbn [rdb events].
  split; [reflexivity |].
  split.
  { rewrite SAdd_lookup_ne by apply mapping_not_active.
    unfold Set_. now rewrite lookup_insert_eq. }
  split.
  { rewrite SAdd_members.
    - f_equal. apply members_lookup. unfold Set_.
      apply lookup_insert_ne. apply mapping_not_active.
    - intros s' t'. unfold Set_.
      rewrite lookup_insert_ne by apply mapping_not_active. apply Hset. }
  intros k Hk1 Hk2. rewrite SAdd_lookup_ne by assumption.
  unfold Set_. now rewrite lookup_insert_ne by congruence.
Qed.

(** X7.  The admission handler writes to the store only when it admits:
    whenever its outcome is anything but the reply with code 0 (a denial
    with 1001 or 1002, the silent return on a body that does not bind, or
    the panic on a URL that does not parse), the store is exactly as it
    was before the request. *)
Theorem start_writes_only_when_admitting (month : string) (b : Bound) (w : World) :
  reply (start month b w) = Some (Some (mkReply 200 0 None)) ∨
  rdb (after (start month b w)) = rdb w.
Proof.
  destruct (bindErr b) eqn:Hb.
  { right. unfold on_sub_start. now rewrite Hb. }
  destruct (url_Parse (Url (msg b))) as [u |] eqn:Hu.
  2: { right. unfold on_sub_start. now rewrite Hb, Hu. }
  destruct (decide (Query_Get u "token" = "")) as [Ht | Ht].
  { right. unfold on_sub_start. rewrite Hb, Hu.
    destruct (decide (Query_Get u "token" = "")); [reflexivity | done]. }
  rewrite (start_run url_Parse Query_Get month b u w Hb Hu Ht). cbv zeta.
  set (tk := remainKey (Query_Get u "token") month).
  destruct (rdb w !! tk) as [e |] eqn:He.
  - rewrite (SetNX_present _ _ _ _ He). cbn [fst].
    destruct (Val (Int (Get tk (rdb w))) <=? 0); [now right | now left].
  - left. unfold SetNX. rewrite He. cbn [fst].
    unfold Get, Int. rewrite lookup_insert_eq. reflexivity.
Qed.

(** X8.  A start that is admitted followed by the stop for the same
    notification puts the registry back: if the session was not registered
    before (not in its stream's set, no mapping) then afterwards every key
    outside the ledger holds what it held before the start, and nothing was
    sent.  Only the ledger remembers the visit. *)
Theorem start_then_stop_restores_registry
    (month : string) (b : Bound) (w w1 : World) (r : Reply) :
  let sID := GetID (msg b) in
  let key := activeKey (StreamName (msg b)) in
  start month b w = Return (Some r) w1 →
  error_code r = 0 →
  rdb w !! mapKey sID = None →
  sID ∉ members (rdb w) key →
  (∀ t, rdb w !! key ≠ Some (mkEntry (RSet ∅) t)) →
  ∃ w2, on_sub_stop b w1 = Return (Some (mkReply 200 0 None)) w2 ∧
        events w2 = events w ∧
        ∀ k, ¬ is_ledger_key k → rdb w2 !! k = rdb w !! k.
Proof.
  intros sID key Hrun Hcode Hmap Hnot Hne.
  destruct (bindErr b) eqn:Hb.
  { unfold on_sub_start in Hrun. rewrite Hb in Hrun. discriminate Hrun. }
  destruct (url_Parse (Url (msg b))) as [u |] eqn:Hu.
  2: { unfold on_sub_start in Hrun. rewrite Hb, Hu in Hrun. discriminate Hrun. }
  destruct (decide (Query_Get u "token" = "")) as [Ht | Ht].
  { unfold on_sub_start in Hrun. rewrite Hb, Hu in Hrun.
    destruct (decide (Query_Get u "token" = "")); [| done].
    injection Hrun as <- _. discriminate Hcode. }
  rewrite (start_run url_Parse Query_Get month b u w Hb Hu Ht) in Hrun.
  cbv zeta in Hrun. fold sID key in Hrun.
  set (token := Query_Get u "token") in *.
  set (tk := remainKey token month) in *.
  set (st1 := (SetNX tk (Strconv.Itoa DefaultQuota) (rdb w)).1) in *.
  assert (HK : is_ledger_key tk) by now exists token, month.
  destruct (Val (Int (Get tk st1)) <=? 0).
  { injection Hrun as <- _. discriminate Hcode. }
  injection Hrun as _ <-.
  unfold on_sub_stop. fold sID. step_m. cbn [rdb events]. rewrite Del_fst.
  change ("active_sids:" +:+ StreamName (msg b)) with key.
  change ("sid_to_token:" +:+ sID) with (mapKey sID).
  eexists. split; [reflexivity |]. cbn [rdb events].
  split; [reflexivity |].
  set (st2 := Set_ (mapKey sID) token 7200000 st1).
  assert (Hst2 : ∀ k, k ≠ mapKey sID → st2 !! k = st1 !! k).
  { intros k Hk. unfold st2, Set_. now apply lookup_insert_ne. }
  assert (Hst1 : ∀ k, ¬ is_ledger_key k → st1 !! k = rdb w !! k).
  { intros k Hk. apply SetNX_lookup_ne. congruence. }
  assert (Hkey : ¬ is_ledger_key key) by apply active_key_not_ledger.
  assert (Hback : (SRem key sID (SAdd key sID st2).1).1 = st2).
  { apply SRem_SAdd.
    - rewrite (members_lookup (rdb w)); [assumption |].
      rewrite Hst2 by (apply not_eq_sym; apply mapping_not_active).
      now apply Hst1.
    - intros t. rewrite Hst2 by (apply not_eq_sym; apply mapping_not_active).
      rewrite Hst1 by assumption. apply Hne. }
  rewrite Hback. intros k Hk.
  destruct (decide (k = mapKey sID)) as [-> | Hkm].
  - now rewrite lookup_delete_eq.
  - rewrite lookup_delete_ne by congruence.
    rewrite Hst2 by assumption. now apply Hst1.
Qed.

(** X9.  A start notification that is admitted can be repeated without
    effect: sent again right after, with the same body in the same month,
    it gets the same reply and leaves the world as the first one left it
    (the session is not registered twice, so it is not billed twice). *)
Theorem start_admitted_twice_is_once
    (month : string) (b : Bound) (w w1 : World) (r : Reply) :
  start month b w = Return (Some r) w1 →
  error_code r = 0 →
  start month b w1 = Return (Some r) w1.
Proof.
  intros Hrun Hcode.
  destruct (bindErr b) eqn:Hb.
  { unfold on_sub_start in Hrun. rewrite Hb in Hrun. discriminate Hrun. }
  destruct (url_Parse (Url (msg b))) as [u |] eqn:Hu.
  2: { unfold on_sub_start in Hrun. rewrite Hb, Hu in Hrun. discriminate Hrun. }
  destruct (decide (Query_Get u "token" = "")) as [Ht | Ht].
  { unfold on_sub_start in Hrun. rewrite Hb, Hu in Hrun.
    destruct (decide (Query_Get u "token" = "")); [| done].
    injection Hrun as <- _. discriminate Hcode. }
  rewrite (start_run url_Parse Query_Get month b u w1 Hb Hu Ht).
  rewrite (start_run url_Parse Query_Get month b u w Hb Hu Ht) in Hrun.
  cbv zeta in *.
  set (token := Query_Get u "token") in *.
  set (sID := GetID (msg b)) in *.
  set (key := activeKey (StreamName (msg b))) in *.
  set (tk := remainKey token month) in *.
  set (st1 := (SetNX tk (Strconv.Itoa DefaultQuota) (rdb w)).1) in *.
  assert (HK : is_ledger_key tk) by now exists token, month.
  destruct (Val (Int (Get tk st1)) <=? 0) eqn:Hle.
  { injection Hrun as <- _. discriminate Hcode. }
  injection Hrun as <- <-. cbn [rdb events].
  set (st2 := Set_ (mapKey sID) token 7200000 st1).
  set (st3 := (SAdd key sID st2).1).
  assert (Htk : st3 !! tk = st1 !! tk).
  { unfold st3. rewrite SAdd_lookup_ne by now apply ledger_key_not_active.
    unfold st2, Set_. apply lookup_insert_ne. apply not_eq_sym.
    now apply ledger_key_not_mapping. }
  destruct (SetNX_is_Some tk (Strconv.Itoa DefaultQuota) (rdb w)) as [e He].
  fold st1 in He.
  rewrite (SetNX_present tk _ st3 e) by congruence. cbn [fst].
  assert (Hget : Get tk st3 = Get tk st1) by (unfold Get; now rewrite Htk).
  rewrite Hget, Hle.
  assert (Hset : Set_ (mapKey sID) token 7200000 st3 = st3).
  { unfold Set_. apply insert_id. unfold st3.
    rewrite SAdd_lookup_ne by apply mapping_not_active.
    unfold st2, Set_. apply lookup_insert_eq. }
  rewrite Hset. unfold st3 at 1. now rewrite SAdd_idem.
Qed.

End Registered.

Lemma start_admits_and_registers_witness :
  ∃ w', Sample.start "2026-02" Sample.s1_abc Cases.sixty_left
        = Return (Some (mkReply 200 0 None)) w' ∧
        rdb w' !! "sid_to_token:s1" = Some (mkEntry (RString "abc") (Some 7200000)) ∧
        rdb w' !! "remain:abc:2026-02" = Some (mkEntry (RString "60") None).
Proof.
  destruct (start_admits_and_registers NetUrl.Parse NetUrl.Query_Get "2026-02"
              Sample.s1_abc (NetUrl.mkURL "token=abc") 60 Cases.sixty_left)
    as (w' & Hrun & _ & Hmap & _ & Hrest).
  - reflexivity.
  - reflexivity.
  - discriminate.
  - reflexivity.
  - lia.
  - intros s t. vm_compute. discriminate.
  - exists w'. split; [exact Hrun |]. split; [exact Hmap |].
    rewrite Hrest; [reflexivity | discriminate | discriminate].
Defined.

Lemma start_then_stop_restores_registry_witness :
  ∃ w2, on_sub_stop Sample.s1_abc
          (after (Sample.start "2026-02" Sample.s1_abc Cases.sixty_left))
        = Return (Some (mkReply 200 0 None)) w2 ∧
        rdb w2 !! "sid_to_token:s1" = None ∧
        rdb w2 !! "active_sids:stream" = None.
Proof.
  destruct (start_then_stop_restores_registry NetUrl.Parse NetUrl.Query_Get "2026-02"
              Sample.s1_abc Cases.sixty_left
              (after (Sample.start "2026-02" Sample.s1_abc Cases.sixty_left))
              (mkReply 200 0 None))
    as (w2 & Hrun & _ & Hrest).
  - reflexivity.
  - reflexivity.
  - reflexivity.
  - vm_compute. discriminate.
  - intros t. vm_compute. discriminate.
  - exists w2. split; [exact Hrun |].
    split; (rewrite Hrest; [reflexivity |]).
    + apply (mapping_key_not_ledger "s1").
    + apply (active_key_not_ledger "stream").
Defined.

Lemma start_admitted_twice_is_once_witness :
  let w1 := after (Sample.start "2026-02" Sample.s1_abc Cases.sixty_left) in
  Sample.start "2026-02" Sample.s1_abc w1 = Return (Some (mkReply 200 0 None)) w1.
Proof.
  apply (start_admitted_twice_is_once NetUrl.Parse NetUrl.Query_Get "2026-02"
           Sample.s1_abc Cases.sixty_left); reflexivity.
Defined.

(** ** The start handler listed in [README.md] *)

(** On a body that does not bind, the handler of the listing answers with
    error code 1 and changes nothing. *)
Lemma readme_start_malformed_body
    {URL : Type} (url_Parse : string → option URL)
    (Query_Get : URL → string → string)
    (quota : Z) (month : string) (b : Bound) (w : World) :
  bindErr b = true →
  Readme.on_sub_start url_Parse Query_Get quota month b w
  = Return (Some (mkReply 200 1 (Some "invalid json"))) w.
Proof. intros Hb. unfold Readme.on_sub_start. now rewrite Hb. Qed.

(** Both denials of the listing sleep 300 ms before the kick. *)
Lemma readme_denial_grace_delay
    {URL : Type} (url_Parse : string → option URL)
    (Query_Get : URL → string → string)
    (quota : Z) (month : string) (b : Bound) (w w' : World) (r : Reply) :
  Readme.on_sub_start url_Parse Query_Get quota month b w = Return (Some r) w' →
  let req := mkKickReq (StreamName (msg b)) (GetID (msg b)) in
  (error_code r = 1 ∧ events w' = events w) ∨
  (error_code r = 1001 ∧ events w' = (events w ++ [GoSleepKick 300 req])%list) ∨
  (error_code r = 1002 ∧ events w' = (events w ++ [GoSleepKick 300 req])%list) ∨
  (error_code r = 0 ∧ events w' = events w).
Proof.
  unfold Readme.on_sub_start.
  destruct (bindErr b); [intros [= <- <-]; left; now split |].
  destruct (url_Parse (Url (msg b))) as [u |]; [| discriminate].
  destruct (decide (Query_Get u "token" = "")).
  { step_m. intros [= <- <-]. right. left. now split. }
  step_m.
  destruct (Val (Int (Get _ _)) <=? 0).
  { step_m. intros [= <- <-]. right. right. left. now split. }
  step_m. intros [= <- <-]. right. right. right. now split.
Qed.

(** The two start handlers side by side, with the default quota of 120:
    on a body that does not bind, and on a token whose quota is used up. *)
Example start_handlers_differ :
  let readme := Readme.on_sub_start NetUrl.Parse NetUrl.Query_Get 120 "2026-02" in
  Sample.start "2026-02" Sample.malformed Sample.w0 = Return None Sample.w0 ∧
  readme Sample.malformed Sample.w0
  = Return (Some (mkReply 200 1 (Some "invalid json"))) Sample.w0 ∧
  events (after (Sample.start "2026-02" Sample.s1_abc Sample.exhausted))
  = [GoSleepKick 500 (mkKickReq "stream" "s1")] ∧
  events (after (readme Sample.s1_abc Sample.exhausted))
  = [GoSleepKick 300 (mkKickReq "stream" "s1")] ∧
  events (after (Sample.start "2026-02" Sample.s1_no_token Sample.w0))
  = [GoSleepKick 200 (mkKickReq "stream" "s1")] ∧
  events (after (readme Sample.s1_no_token Sample.w0))
  = [GoSleepKick 300 (mkKickReq "stream" "s1")].
Proof. vm_compute. repeat split. Qed.

(** ** The quota report *)

(** X10.  GET /quotas returns the world untouched and its list has one
    entry for every key of the store that is a ledger key of February 2026,
    and no other entry: a key is named by an entry exactly when it is such
    a key and is in the store, and no key is named twice.  For each
    entry the status is "exhausted" when the remaining value is at most 0 and
    "active" otherwise, and the remaining value is the integer the key
    holds; a key that holds a set is reported with 0 and "exhausted",
    because the error of the read is dropped. *)
Theorem quotas_report (w : World) :
  ∃ l, quotas w = Return (200, l) w ∧
       NoDup (map Stream l) ∧
       (∀ k, k ∈ map Stream l
             ↔ (∃ token, k = remainKey token "2026-02") ∧ is_Some (rdb w !! k)) ∧
       ∀ q, q ∈ l →
         is_Some (rdb w !! Stream q) ∧
         (∃ token, Stream q = remainKey token "2026-02") ∧
         (Remaining q <= 0 → Status q = "exhausted") ∧
         (0 < Remaining q → Status q = "active") ∧
         (∀ n, ledger (rdb w) (Stream q) = Some n → Remaining q = n) ∧
         (∀ m t, rdb w !! Stream q = Some (mkEntry (RSet m) t) →
                 Remaining q = 0 ∧ Status q = "exhausted").
Proof.
  eexists. split; [apply quotas_spec |].
  set (f := fun key => let val := Val (Int (Get key (rdb w))) in
                       mkQuotaInfo key val (quotaStatus val)).
  assert (Hid : map Stream (map f (Val (Keys "remain:*:2026-02" (rdb w))))
                = Val (Keys "remain:*:2026-02" (rdb w))).
  { rewrite map_map. rewrite (map_ext _ (fun key => key)) by reflexivity.
    apply map_id. }
  split.
  { rewrite Hid. unfold Keys. simpl. apply NoDup_filter.
    apply NoDup_fst_map_to_list. }
  split.
  { intros k. rewrite Hid, Keys_elem. now rewrite glob_remain_2026_02. }
  intros q Hq. apply list_elem_of_In, in_map_iff in Hq as (key & <- & Hkey).
  apply list_elem_of_In, Keys_elem in Hkey as [Hg Hsome].
  apply glob_remain_2026_02 in Hg. simpl.
  split; [assumption |]. split; [assumption |].
  unfold quotaStatus.
  split; [intros Hle; now destruct (Z.leb_spec (Val (Int (Get key (rdb w)))) 0); [| lia] |].
  split; [intros Hlt; now destruct (Z.leb_spec (Val (Int (Get key (rdb w)))) 0); [lia |] |].
  split.
  - intros n Hn. unfold ledger in Hn. unfold Get, Int.
    destruct (rdb w !! key) as [[[s | m] t] |]; try discriminate.
    simpl. now apply Atoi_string2ll.
  - intros m t He. unfold Get, Int. rewrite He. simpl. now split.
Qed.

(** ** The shape of every reachable store *)














Section Shape.
Context {URL : Type}.
Variable url_Parse : string → option URL.
Variable Query_Get : URL → string → string.




End Shape.



(** ** One counter per token and month *)

Lemma length_app_string (a b : string) :
  String.length (a +:+ b) = (String.length a + String.length b)%nat.
Proof. induction a as [| c a IH]; simpl; [reflexivity | now rewrite IH]. Qed.

Lemma app_string_inj_tail (a c b d : string) :
  a +:+ b = c +:+ d → String.length b = String.length d → a = c ∧ b = d.
Proof.
  revert c. induction a as [| x a IH]; intros [| y c] Heq Hlen.
  - now split.
  - exfalso. change (b = String y (c +:+ d)) in Heq. subst b.
    simpl in Hlen. rewrite length_app_string in Hlen. lia.
  - exfalso. change (String x (a +:+ b) = d) in Heq. subst d.
    simpl in Hlen. rewrite length_app_string in Hlen. lia.
  - injection Heq as -> Heq. destruct (IH c Heq Hlen) as [-> ->]. now split.
Qed.

(** Ledger keys do not collide: with months of one length, as the layout
    "2006-01" gives them, the key determines the token and the month. *)
Lemma remainKey_inj (token token' month month' : string) :
  String.length month = String.length month' →
  remainKey token month = remainKey token' month' →
  token = token' ∧ month = month'.
Proof.
  intros Hlen Heq. unfold remainKey in Heq.
  simpl in Heq. injection Heq as Heq.
  change (token +:+ String ":" month = token' +:+ String ":" month') in Heq.
  apply app_string_inj_tail in Heq as [-> Heq]; [| simpl; now rewrite Hlen].
  now injection Heq as ->.
Qed.

Lemma untouched_ret {A} (K : string → Prop) (a : A) : untouched K (ret a).
Proof. now intros w k _. Qed.

Lemma untouched_panic {A} (K : string → Prop) : untouched K (@panic A).
Proof. now intros w k _. Qed.

Lemma untouched_query {A} (K : string → Prop) (c : Store → Cmd A) :
  untouched K (query c).
Proof. now intros w k _. Qed.

Lemma untouched_emit (K : string → Prop) (e : Event) : untouched K (emit e).
Proof. now intros w k _. Qed.

Lemma untouched_exec {A} (K : string → Prop) (c : Store → Store * Cmd A) :
  (∀ st k, K k → (c st).1 !! k = st !! k) → untouched K (exec c).
Proof.
  intros H w k Hk. unfold exec. specialize (H (rdb w) k Hk).
  now destruct (c (rdb w)).
Qed.

Lemma untouched_bind {A B} (K : string → Prop) (m : M A) (f : A → M B) :
  untouched K m → (∀ a, untouched K (f a)) → untouched K (bind m f).
Proof.
  intros Hm Hf w k Hk. unfold bind. specialize (Hm w k Hk).
  destruct (m w) as [a w' | w']; simpl in Hm; [| exact Hm].
  now rewrite (Hf a w' k Hk).
Qed.

Lemma untouched_forM {A} (K : string → Prop) (l : list A) (body : A → M unit) :
  (∀ x, x ∈ l → untouched K (body x)) → untouched K (forM l body).
Proof.
  induction l as [| x l IH]; intros Hb; simpl.
  - apply untouched_ret.
  - apply untouched_bind; [apply Hb; left |].
    intros _. apply IH. intros y Hy. apply Hb. now right.
Qed.

(** The keys a task of month [month] has no business with: the ledger
    keys of the other months. *)
Lemma other_month_key (month month' token token' : string) :
  String.length month = String.length month' → month ≠ month' →
  remainKey token' month' ≠ remainKey token month.
Proof.
  intros Hlen Hne Heq.
  apply remainKey_inj in Heq as [_ Heq]; [| now symmetry]. congruence.
Qed.

Lemma enforceSession_other_months (month month' stream streamName sID : string) :
  String.length month = String.length month' → month ≠ month' →
  untouched (fun k => ∃ token, k = remainKey token month')
    (enforceSession month (activeKey stream) streamName sID).
Proof.
  intros Hlen Hne. unfold enforceSession.
  apply untouched_bind; [apply untouched_query |].
  intros token. destruct (decide (Val token = "")); [apply untouched_ret |].
  apply untouched_bind.
  { apply untouched_exec. intros st k [token' ->].
    apply DecrBy_lookup_ne. now apply other_month_key. }
  intros newBalance. destruct (Val newBalance <=? 0); [| apply untouched_ret].
  apply untouched_bind; [apply untouched_emit |]. intros _.
  apply untouched_bind.
  { apply untouched_exec. intros st k [token' ->].
    apply SRem_lookup_ne. apply ledger_key_not_active. now exists token', month'. }
  intros _. apply untouched_bind.
  { apply untouched_exec. intros st k [token' ->].
    rewrite Del_fst. apply lookup_delete_ne. apply not_eq_sym.
    apply ledger_key_not_mapping. now exists token', month'. }
  intros _. apply untouched_ret.
Qed.

Lemma enforcerTick_other_months (month month' : string) :
  String.length month = String.length month' → month ≠ month' →
  untouched (fun k => ∃ token, k = remainKey token month') (enforcerTick month).
Proof.
  intros Hlen Hne w. unfold enforcerTick. rewrite bind_query.
  apply untouched_forM.
  intros key [Hg _]%Keys_elem. apply glob_active_sids in Hg as [stream ->].
  unfold enforceStream.
  apply untouched_bind; [apply untouched_query |].
  intros sids. apply untouched_forM.
  intros sID _. now apply (enforceSession_other_months month month' stream).
Qed.

Section Months.
Context {URL : Type}.
Variable url_Parse : string → option URL.
Variable Query_Get : URL → string → string.

Lemma start_other_months (month month' : string) (b : Bound) :
  String.length month = String.length month' → month ≠ month' →
  untouched (fun k => ∃ token, k = remainKey token month')
    (on_sub_start url_Parse Query_Get month b).
Proof.
  intros Hlen Hne. unfold on_sub_start.
  destruct (bindErr b); [apply untouched_ret |].
  destruct (url_Parse (Url (msg b))) as [u |]; [| apply untouched_panic].
  destruct (decide (Query_Get u "token" = "")).
  { apply untouched_bind; [apply untouched_emit |].
    intros _. apply untouched_ret. }
  apply untouched_bind.
  { apply untouched_exec. intros st k [token' ->].
    apply SetNX_lookup_ne. now apply other_month_key. }
  intros _. apply untouched_bind; [apply untouched_query |].
  intros remain. destruct (Val remain <=? 0).
  { apply untouched_bind; [apply untouched_emit |].
    intros _. apply untouched_ret. }
  apply untouched_bind.
  { apply untouched_exec. intros st k [token' ->]. cbn [fst].
    unfold Set_. apply lookup_insert_ne. apply not_eq_sym.
    apply ledger_key_not_mapping. now exists token', month'. }
  intros _. apply untouched_bind.
  { apply untouched_exec. intros st k [token' ->].
    apply SAdd_lookup_ne. apply ledger_key_not_active. now exists token', month'. }
  intros _. apply untouched_ret.
Qed.

(** X12.  Quota does not leak between months: an admission check or a
    tick that runs in one month leaves the ledger entry of every token for
    any other month of the same written length exactly as it was, present
    or absent.  (Months come from the layout "2006-01" and so all have
    seven characters.) *)
Theorem other_months_are_untouched
    (r : Request) (month month' token : string) (w : World) :
  r = Tick month ∨ (∃ b, r = SubStart month b) →
  String.length month = String.length month' →
  month ≠ month' →
  rdb (serve url_Parse Query_Get r w) !! remainKey token month'
  = rdb w !! remainKey token month'.
Proof.
  intros [-> | [b ->]] Hlen Hne; simpl.
  - apply (enforcerTick_other_months month month' Hlen Hne). now exists token.
  - apply (start_other_months month month' b Hlen Hne). now exists token.
Qed.

End Months.

Lemma other_months_are_untouched_witness :
  rdb (Sample.run [Tick "2026-03"] Sample.last_tick) !! "remain:abc:2026-02"
  = Some (mkEntry (RString "5") None).
Proof.
  change (rdb (serve NetUrl.Parse NetUrl.Query_Get (Tick "2026-03") Sample.last_tick)
            !! remainKey "abc" "2026-02"
          = rdb Sample.last_tick !! remainKey "abc" "2026-02").
  apply (other_months_are_untouched NetUrl.Parse NetUrl.Query_Get
           (Tick "2026-03") "2026-03" "2026-02" "abc" Sample.last_tick).
  - now left.
  - reflexivity.
  - discriminate.
Defined.

(** ** The cycle of the Enforcer *)

Lemma SMembers_elements (key : string) (st : Store) :
  Val (SMembers key st) = elements (members st key).
Proof.
  unfold SMembers, members.
  destruct (st !! key) as [[[s | m] t] |]; simpl;
    [symmetry; apply elements_empty | reflexivity | symmetry; apply elements_empty].
Qed.

Lemma SMembers_lookup (key : string) (st st' : Store) :
  st' !! key = st !! key → SMembers key st' = SMembers key st.
Proof. unfold SMembers. now intros ->. Qed.

Lemma forM_map {A B} (f : A → B) (l : list A) (body : B → M unit) (w : World) :
  forM (map f l) body w = forM l (fun x => body (f x)) w.
Proof.
  revert w. induction l as [| x l IH]; intros w; simpl; [reflexivity |].
  unfold bind. destruct (body (f x) w) as [[] w' | w']; [apply IH | reflexivity].
Qed.

(** The step for a session of one stream leaves the sets of the other
    streams alone. *)
Lemma enforceSession_other_sets (month key streamName sID : string) :
  untouched (fun k => k ≠ key ∧ ∃ stream, k = activeKey stream)
    (enforceSession month key streamName sID).
Proof.
  unfold enforceSession.
  apply untouched_bind; [apply untouched_query |].
  intros token. destruct (decide (Val token = "")); [apply untouched_ret |].
  apply untouched_bind.
  { apply untouched_exec. intros st k [_ [stream ->]].
    apply DecrBy_lookup_ne. apply not_eq_sym, ledger_key_not_active.
    now exists (Val token), month. }
  intros newBalance. destruct (Val newBalance <=? 0); [| apply untouched_ret].
  apply untouched_bind; [apply untouched_emit |]. intros _.
  apply untouched_bind.
  { apply untouched_exec. intros st k [Hk _]. now apply SRem_lookup_ne. }
  intros _. apply untouched_bind.
  { apply untouched_exec. intros st k [_ [stream ->]].
    rewrite Del_fst. apply lookup_delete_ne. apply mapping_not_active. }
  intros _. apply untouched_ret.
Qed.

Lemma enforceStream_other_sets (month key : string) :
  untouched (fun k => k ≠ key ∧ ∃ stream, k = activeKey stream)
    (enforceStream month key).
Proof.
  unfold enforceStream. apply untouched_bind; [apply untouched_query |].
  intros sids. apply untouched_forM. intros sID _.
  apply enforceSession_other_sets.
Qed.

Lemma visits_flat_map (st : Store) :
  visits st = flat_map (visits_of st) (Val (Keys "active_sids:*" st)).
Proof. reflexivity. Qed.

(** The pass over one stream, when the set of the stream is as it is in
    [st]. *)
Lemma enforceStream_visits (month stream : string) (st : Store) (w : World) :
  rdb w !! activeKey stream = st !! activeKey stream →
  enforceStream month (activeKey stream) w
  = forM (visits_of st (activeKey stream)) (visit month) w.
Proof.
  intros Hk. unfold enforceStream, visits_of. rewrite bind_query.
  rewrite (SMembers_lookup _ st (rdb w) Hk), forM_map.
  unfold visit, activeKey. cbn [fst snd]. now rewrite TrimPrefix_active.
Qed.

(** The loop over the keys runs the session step for the pairs of [st] in
    order, when the sets of these keys are as they are in [st]: the pass
    over one stream does not change what the pass over a later one
    reads. *)
Lemma streams_visits (month : string) (st : Store) (keys : list string) :
  NoDup keys →
  (∀ k, k ∈ keys → ∃ stream, k = activeKey stream) →
  ∀ w, (∀ k, k ∈ keys → rdb w !! k = st !! k) →
       forM keys (enforceStream month) w
       = forM (flat_map (visits_of st) keys) (visit month) w.
Proof.
  induction keys as [| key keys IH]; intros Hnd Hact w Hw; [reflexivity |].
  apply NoDup_cons in Hnd as [Hkey Hnd].
  destruct (Hact key) as [stream ->]; [left |].
  cbn [flat_map]. rewrite forM_app. cbn [forM]. unfold bind.
  rewrite <- (enforceStream_visits month stream st w) by (apply Hw; left).
  pose proof (enforceStream_other_sets month (activeKey stream) w) as Hu.
  destruct (enforceStream month (activeKey stream) w) as [[] w1 | w1];
    [| reflexivity].
  apply IH; [assumption | intros k Hk; apply Hact; now right |].
  intros k Hk. simpl in Hu. rewrite Hu; [apply Hw; now right |].
  split; [intros -> ; contradiction | apply Hact; now right].
Qed.

Lemma Keys_NoDup (pattern : string) (st : Store) : NoDup (Val (Keys pattern st)).
Proof. unfold Keys. simpl. apply NoDup_filter, NoDup_fst_map_to_list. Qed.

(** A tick is the session step run for the pairs of its starting store,
    in order. *)
Lemma enforcerTick_visits (month : string) (w : World) :
  enforcerTick month w = forM (visits (rdb w)) (visit month) w.
Proof.
  unfold enforcerTick. rewrite bind_query, visits_flat_map.
  apply streams_visits.
  - apply Keys_NoDup.
  - intros k [Hg _]%Keys_elem. now apply glob_active_sids.
  - reflexivity.
Qed.

Lemma visits_of_elem (st : Store) (key stream sID : string) :
  (stream, sID) ∈ visits_of st key
  ↔ stream = TrimPrefix key "active_sids:" ∧ sID ∈ members st key.
Proof.
  unfold visits_of. rewrite list_elem_of_In, in_map_iff, SMembers_elements.
  split.
  - intros (s & [= <- <-] & Hs). split; [reflexivity |].
    now apply elem_of_elements, list_elem_of_In.
  - intros [-> Hs]. exists sID. split; [reflexivity |].
    now apply list_elem_of_In, elem_of_elements.
Qed.

(** The pairs of a store are the members of its active sets, each under
    the name of its stream. *)
Lemma visits_elem (st : Store) (stream sID : string) :
  (stream, sID) ∈ visits st ↔ sID ∈ members st (activeKey stream).
Proof.
  rewrite visits_flat_map, list_elem_of_In, in_flat_map. split.
  - intros (key & Hkey & Hin).
    apply list_elem_of_In, Keys_elem in Hkey as [Hg _].
    apply glob_active_sids in Hg as [x ->].
    apply list_elem_of_In, visits_of_elem in Hin as [-> Hs].
    now rewrite TrimPrefix_active.
  - intros Hm. exists (activeKey stream). split; apply list_elem_of_In.
    + apply Keys_elem. split; [apply glob_active_sids; now exists stream |].
      unfold members in Hm.
      destruct (st !! activeKey stream); [eauto | now apply elem_of_empty in Hm].
    + apply visits_of_elem. split; [| assumption].
      unfold activeKey. now rewrite TrimPrefix_active.
Qed.

(** No pair comes twice. *)
Lemma visits_NoDup (st : Store) : NoDup (visits st).
Proof.
  rewrite visits_flat_map.
  assert (Hact : ∀ k, k ∈ Val (Keys "active_sids:*" st) →
                      ∃ stream, k = activeKey stream).
  { intros k [Hg _]%Keys_elem. now apply glob_active_sids. }
  pose proof (Keys_NoDup "active_sids:*" st) as Hnd.
  induction (Val (Keys "active_sids:*" st)) as [| key keys IH]; [constructor |].
  apply NoDup_cons in Hnd as [Hkey Hnd]. cbn [flat_map].
  apply NoDup_app. split; [| split].
  - unfold visits_of. rewrite SMembers_elements.
    apply (NoDup_fmap_2 (fun sID => (TrimPrefix key "active_sids:", sID))).
    apply NoDup_elements.
  - intros [stream sID] [Hs _]%visits_of_elem Hin.
    apply list_elem_of_In, in_flat_map in Hin as (key' & Hkey' & Hin).
    apply list_elem_of_In in Hkey'.
    apply list_elem_of_In, visits_of_elem in Hin as [Hs' _].
    destruct (Hact key) as [x ->]; [left |].
    destruct (Hact key') as [x' ->]; [now right |].
    unfold activeKey in Hs, Hs'. rewrite TrimPrefix_active in Hs, Hs'.
    apply Hkey. congruence.
  - apply IH; [| assumption]. intros k Hk. apply Hact. now right.
Qed.

(** C1.  Every cycle of the Enforcer, that is every tick of
    [startEnforcer] once the time since the previous tick has passed on
    the store, runs the session step once for each session id of each
    active set, under the stream name cut from the key of the set, and
    then goes on to the next tick.  The pairs (stream, session id) it
    visits are exactly the members of the active sets of the store as the
    cycle finds it, none of them twice.  The step for a pair always
    completes.  If the session resolves to no token it changes nothing.
    Otherwise, with [n] the balance of the token's ledger entry for the
    month (a missing entry counting as 0, as DECRBY has it) and [n - 5]
    still a 64-bit value, the balance becomes [n - 5] and no other ledger
    entry changes; when [n - 5 <= 0] exactly one kick for (stream, session)
    is sent, by the Enforcer itself, the session leaves the active set of
    its stream and its mapping is deleted; when [n - 5 > 0] nothing but
    that ledger entry changes. *)
Theorem enforcer_cycle
    (elapsed : Z) (month : string) (rest : list (Z * string)) (w : World) :
  let st := elapse elapsed (rdb w) in
  startEnforcer ((elapsed, month) :: rest) w
  = bind (forM (visits st) (visit month)) (fun _ => startEnforcer rest)
      (mkWorld st (events w)) ∧
  (∀ v, enforcerTick month v = forM (visits (rdb v)) (visit month) v) ∧
  (∀ stream sID,
     (stream, sID) ∈ visits st ↔ sID ∈ members st ("active_sids:" +:+ stream)) ∧
  NoDup (visits st) ∧
  ∀ stream sID v,
    let key := "active_sids:" +:+ stream in
    let mapKey := "sid_to_token:" +:+ sID in
    ∃ v', visit month (stream, sID) v = Return tt v' ∧
      match mapping (rdb v) sID with
      | None => v' = v
      | Some token =>
          let tokenKey := remainKey token month in
          ∀ n, ledger (rdb v) tokenKey = Some n ∨ (rdb v !! tokenKey = None ∧ n = 0) →
               Strconv.in_int64 (n - 5) = true →
               ledger (rdb v') tokenKey = Some (n - 5) ∧
               (∀ k, k ≠ tokenKey → k ≠ key → k ≠ mapKey → rdb v' !! k = rdb v !! k) ∧
               if n - 5 <=? 0 then
                 events v' = (events v ++ [CallKick (mkKickReq stream sID)])%list ∧
                 members (rdb v') key = members (rdb v) key ∖ {[sID]} ∧
                 rdb v' !! mapKey = None
               else
                 events v' = events v ∧
                 rdb v' !! key = rdb v !! key ∧
                 rdb v' !! mapKey = rdb v !! mapKey
      end.
Proof.
  intros st.
  split.
  { rewrite startEnforcer_cons. fold st. unfold bind.
    now rewrite enforcerTick_visits. }
  split; [apply enforcerTick_visits |].
  split; [intros stream sID; apply visits_elem |].
  split; [apply visits_NoDup |].
  intros stream sID v. apply enforcer_session_step.
Qed.

(** The last tick of a session: five seconds after the store was looked
    at, the one pair is visited, the balance goes from 5 to 0 and the
    session is kicked. *)
Lemma enforcer_cycle_witness :
  ∃ w', startEnforcer [(TickerPeriod, "2026-02")] Sample.last_tick = Return tt w' ∧
        ledger (rdb w') "remain:abc:2026-02" = Some 0 ∧
        events w' = [CallKick (mkKickReq "stream" "s1")] ∧
        rdb w' !! "sid_to_token:s1" = None.
Proof.
  destruct (enforcer_cycle TickerPeriod "2026-02" [] Sample.last_tick)
    as (Hrun & _ & _ & _ & Hstep).
  set (w5 := mkWorld (elapse TickerPeriod (rdb Sample.last_tick))
               (events Sample.last_tick)) in *.
  destruct (Hstep "stream" "s1" w5) as (w' & Hvisit & Hspec).
  exists w'. split.
  { rewrite Hrun.
    change (visits (elapse TickerPeriod (rdb Sample.last_tick)))
      with [("stream", "s1")].
    cbn [forM]. unfold bind. now rewrite Hvisit. }
  change (mapping (rdb w5) "s1") with (Some "abc") in Hspec.
  destruct (Hspec 5 (or_introl eq_refl) eq_refl) as (Hl & _ & He & _ & Hk).
  repeat split; [exact Hl | exact He | exact Hk].
Defined.
